(** * Blocking queue and worker pool: a shallow embedding

    The development follows two headers of the repository:
    - [C++/ThreadSafeQueue/include/thread_safe_queue.hpp]
    - [C++/ThreadPool/include/thread_pool.hpp]

    Every member function of [thread_safe_queue] runs its body while it
    holds [mutex_], so a call is one atomic transition of the protected
    state ([queue_], [shutdown_]).  A call that waits on [cv_] has no
    transition in a state where its predicate is false: it [Blocks].  The
    pool is the interleaving of such transitions, taken by the workers and
    by the threads that call [submit], [wait_all] and [shutdown]. *)

From stdpp Require Import base numbers list strings.

Set Default Proof Using "Type".

(** ** Exceptions and results of a call *)

Inductive future_errc := promise_already_satisfied | no_state.

(** The exceptions that the two headers and the library calls they make can
    raise; a submitted callable may raise any of them. *)
Inductive exception :=
  | runtime_error (what : string)
  | future_error (code : future_errc)
  | bad_function_call.

(** What a call does to a state of type [S]: it returns a value, it leaves
    by an exception, or it has not returned in that state. *)
Inductive outcome (S A : Type) :=
  | Returns (a : A) (s : S)
  | Throws (e : exception) (s : S)
  | Blocks.
Arguments Returns {S A} a s.
Arguments Throws {S A} e s.
Arguments Blocks {S A}.

(** The state a call leaves behind; a blocked call has changed nothing. *)
Definition state_after {S A} (o : outcome S A) (s : S) : S :=
  match o with
  | Returns _ s' => s'
  | Throws _ s' => s'
  | Blocks => s
  end.

(** The error the spec calls [ClosedError]: what [push] raises on a queue
    that has been shut down. *)
Definition ClosedError : exception :=
  runtime_error "push() called on shutdown queue".

Definition throws {S A} (o : outcome S A) : bool :=
  match o with Throws _ _ => true | _ => false end.

(** ** thread_safe_queue<T> *)

Module Queue.
Section thread_safe_queue.
Context {T : Type}.

(** [std::queue<T> queue_] with its front at the head of the list, and
    [bool shutdown_{false}]. *)
Record thread_safe_queue := {
  queue_ : list T;
  shutdown_ : bool
}.

Local Abbreviation result A := (outcome thread_safe_queue A).

(** [thread_safe_queue() = default] *)
Definition make : thread_safe_queue :=
  {| queue_ := []; shutdown_ := false |}.

(** [queue_.empty()] *)
Definition queue_empty (q : thread_safe_queue) : bool :=
  match queue_ q with [] => true | _ :: _ => false end.

(** *** Lifecycle *)

Definition shutdown (q : thread_safe_queue) : result unit :=
  Returns tt {| queue_ := queue_ q; shutdown_ := true |}.

(** [~thread_safe_queue() { shutdown(); }] *)
Definition destroy (q : thread_safe_queue) : result unit := shutdown q.

Definition is_shutdown (q : thread_safe_queue) : result bool :=
  Returns (shutdown_ q) q.

(** *** Capacity *)

Definition size (q : thread_safe_queue) : result nat :=
  Returns (length (queue_ q)) q.

Definition empty (q : thread_safe_queue) : result bool :=
  Returns (queue_empty q) q.

(** *** Producer API

    [push(const T&)] and [push(T&&)] have the same body up to the move. *)
Definition push (value : T) (q : thread_safe_queue) : result unit :=
  if shutdown_ q then
    Throws (runtime_error "push() called on shutdown queue"%string) q
  else
    Returns tt {| queue_ := queue_ q ++ [value]; shutdown_ := shutdown_ q |}.

(** [emplace(args...)] builds the item from [args] inside the queue. *)
Definition emplace {Args : Type} (construct : Args → T) (args : Args)
    (q : thread_safe_queue) : result unit :=
  if shutdown_ q then
    Throws (runtime_error "emplace() called on shutdown queue"%string) q
  else
    Returns tt {| queue_ := queue_ q ++ [construct args];
                  shutdown_ := shutdown_ q |}.

(** *** Consumer API, non blocking *)

(** [bool try_pop(T &out)]: [out] is assigned only when an item is taken. *)
Definition try_pop_ref (out : T) (q : thread_safe_queue) : result (bool * T) :=
  match queue_ q with
  | [] => Returns (false, out) q
  | front :: rest =>
      Returns (true, front) {| queue_ := rest; shutdown_ := shutdown_ q |}
  end.

Definition try_pop (q : thread_safe_queue) : result (option T) :=
  match queue_ q with
  | [] => Returns None q
  | front :: rest =>
      Returns (Some front) {| queue_ := rest; shutdown_ := shutdown_ q |}
  end.

(** *** Consumer API, blocking *)

(** The predicate both waits are keyed on:
    [!queue_.empty() || shutdown_]. *)
Definition wait_pred (q : thread_safe_queue) : bool :=
  negb (queue_empty q) || shutdown_ q.

(** [cv_.wait(lock, pred)] returns only in a state where [pred] holds. *)
Definition cv_wait (pred : bool) : option unit :=
  if pred then Some tt else None.

(** [cv_.wait_for(lock, timeout, pred)] returns [true] in a state where
    [pred] holds, returns [pred()], that is [false], once the timeout has
    [elapsed], and keeps waiting otherwise. *)
Definition cv_wait_for (elapsed : bool) (pred : bool) : option bool :=
  if pred then Some true else if elapsed then Some false else None.

Definition wait_and_pop_ref (out : T) (q : thread_safe_queue)
    : result (bool * T) :=
  match cv_wait (wait_pred q) with
  | None => Blocks
  | Some _ =>
      match queue_ q with
      | [] => Returns (false, out) q
      | front :: rest =>
          Returns (true, front) {| queue_ := rest; shutdown_ := shutdown_ q |}
      end
  end.

Definition wait_and_pop (q : thread_safe_queue) : result (option T) :=
  match cv_wait (wait_pred q) with
  | None => Blocks
  | Some _ =>
      match queue_ q with
      | [] => Returns None q
      | front :: rest =>
          Returns (Some front) {| queue_ := rest; shutdown_ := shutdown_ q |}
      end
  end.

(** *** Consumer API, blocking with timeout

    [elapsed] says whether the deadline has passed in the state where the
    call is looked at. *)
Definition wait_for_ref (out : T) (elapsed : bool) (q : thread_safe_queue)
    : result (bool * T) :=
  match cv_wait_for elapsed (wait_pred q) with
  | None => Blocks
  | Some success =>
      if negb success || queue_empty q then Returns (false, out) q
      else
        match queue_ q with
        | [] => Returns (false, out) q
        | front :: rest =>
            Returns (true, front)
                    {| queue_ := rest; shutdown_ := shutdown_ q |}
        end
  end.

Definition wait_for (elapsed : bool) (q : thread_safe_queue)
    : result (option T) :=
  match cv_wait_for elapsed (wait_pred q) with
  | None => Blocks
  | Some success =>
      if negb success || queue_empty q then Returns None q
      else
        match queue_ q with
        | [] => Returns None q
        | front :: rest =>
            Returns (Some front)
                    {| queue_ := rest; shutdown_ := shutdown_ q |}
        end
  end.

(** *** Sequences of calls made by one thread *)

(** Push the items of [values] one after the other; the first exception
    ends the sequence. *)
Fixpoint push_all (values : list T) (q : thread_safe_queue) : result unit :=
  match values with
  | [] => Returns tt q
  | value :: values' =>
      match push value q with
      | Returns _ q' => push_all values' q'
      | Throws e q' => Throws e q'
      | Blocks => Blocks
      end
  end.

(** The two ways a consumer takes an item without a deadline. *)
Inductive pop_call := by_try_pop | by_wait_and_pop.

Definition pop (c : pop_call) (q : thread_safe_queue) : result (option T) :=
  match c with
  | by_try_pop => try_pop q
  | by_wait_and_pop => wait_and_pop q
  end.

(** One pop per element of [calls], in order, with the results collected. *)
Fixpoint pops (calls : list pop_call) (q : thread_safe_queue)
    : result (list (option T)) :=
  match calls with
  | [] => Returns [] q
  | c :: calls' =>
      match pop c q with
      | Returns r q' =>
          match pops calls' q' with
          | Returns rs q'' => Returns (r :: rs) q''
          | Throws e q'' => Throws e q''
          | Blocks => Blocks
          end
      | Throws e q' => Throws e q'
      | Blocks => Blocks
      end
  end.

(** Every member function, as one call on the queue. *)
Inductive call :=
  | call_push (value : T)
  | call_emplace (value : T)
  | call_try_pop
  | call_try_pop_ref (out : T)
  | call_wait_and_pop
  | call_wait_and_pop_ref (out : T)
  | call_wait_for (elapsed : bool)
  | call_wait_for_ref (out : T) (elapsed : bool)
  | call_shutdown
  | call_is_shutdown
  | call_size
  | call_empty.

(** The state after a call, whatever it returned or raised. *)
Definition after (c : call) (q : thread_safe_queue) : thread_safe_queue :=
  match c with
  | call_push value => state_after (push value q) q
  | call_emplace value => state_after (emplace id value q) q
  | call_try_pop => state_after (try_pop q) q
  | call_try_pop_ref out => state_after (try_pop_ref out q) q
  | call_wait_and_pop => state_after (wait_and_pop q) q
  | call_wait_and_pop_ref out => state_after (wait_and_pop_ref out q) q
  | call_wait_for elapsed => state_after (wait_for elapsed q) q
  | call_wait_for_ref out elapsed => state_after (wait_for_ref out elapsed q) q
  | call_shutdown => state_after (shutdown q) q
  | call_is_shutdown => state_after (is_shutdown q) q
  | call_size => state_after (size q) q
  | call_empty => state_after (empty q) q
  end.

Definition after_all (cs : list call) (q : thread_safe_queue)
    : thread_safe_queue :=
  foldl (λ q' c, after c q') q cs.

(** The calls that add an item, and the call that closes the queue. *)
Definition produces (c : call) : bool :=
  match c with
  | call_push _ | call_emplace _ => true
  | _ => false
  end.

Definition closes (c : call) : bool :=
  match c with
  | call_shutdown => true
  | _ => false
  end.

(** *** What calls put in and take out *)

(** A result of a [bool] overload, read as a result of the overload that
    returns [std::optional<T>]. *)
Definition as_optional (o : result (bool * T)) : result (option T) :=
  match o with
  | Returns (true, value) q => Returns (Some value) q
  | Returns (false, _) q => Returns None q
  | Throws e q => Throws e q
  | Blocks => Blocks
  end.

(** The item that a returned [std::optional<T>] holds, and the item that a
    [bool] overload has moved into [out] when it returned [true]. *)
Definition item_of_optional (o : result (option T)) : list T :=
  match o with
  | Returns (Some value) _ => [value]
  | _ => []
  end.

Definition item_of_ref (o : result (bool * T)) : list T :=
  match o with
  | Returns (true, value) _ => [value]
  | _ => []
  end.

(** The item a call in state [q] adds to the queue: the argument of a
    [push] or [emplace] that returned. *)
Definition added (c : call) (q : thread_safe_queue) : list T :=
  match c with
  | call_push value =>
      match push value q with Returns _ _ => [value] | _ => [] end
  | call_emplace value =>
      match emplace id value q with Returns _ _ => [value] | _ => [] end
  | _ => []
  end.

(** The item a call in state [q] hands to its caller. *)
Definition taken (c : call) (q : thread_safe_queue) : list T :=
  match c with
  | call_try_pop => item_of_optional (try_pop q)
  | call_try_pop_ref out => item_of_ref (try_pop_ref out q)
  | call_wait_and_pop => item_of_optional (wait_and_pop q)
  | call_wait_and_pop_ref out => item_of_ref (wait_and_pop_ref out q)
  | call_wait_for elapsed => item_of_optional (wait_for elapsed q)
  | call_wait_for_ref out elapsed => item_of_ref (wait_for_ref out elapsed q)
  | _ => []
  end.

(** The items added, and the items handed out, by the calls [cs] made one
    after the other from state [q], in the order of the calls. *)
Fixpoint all_added (cs : list call) (q : thread_safe_queue) : list T :=
  match cs with
  | [] => []
  | c :: cs' => added c q ++ all_added cs' (after c q)
  end.

Fixpoint all_taken (cs : list call) (q : thread_safe_queue) : list T :=
  match cs with
  | [] => []
  | c :: cs' => taken c q ++ all_taken cs' (after c q)
  end.

End thread_safe_queue.
Arguments thread_safe_queue : clear implicits.
Arguments call : clear implicits.
End Queue.

(** ** thread_pool *)

Module Pool.
Section thread_pool.
(** The values that submitted callables return. *)
Context {V : Type}.

(** [std::invoke_result_t<F, Args...>], which may be [void]. *)
Inductive retval := void | value (v : V).

(** A call of a callable either returns or raises. *)
Inductive call_result := returned (r : retval) | raised (e : exception).

(** A callable with its bound arguments, as [submit] captures it. *)
Definition callable := unit → call_result.

(** The shared state behind a [std::packaged_task] and its [std::future]. *)
Inductive future_state :=
  | pending
  | ready (r : retval)
  | failed (e : exception).

Definition settle (r : call_result) : future_state :=
  match r with
  | returned v => ready v
  | raised e => failed e
  end.

(** [std::packaged_task<return_type()>], held through a [shared_ptr]. *)
Record packaged_task := {
  func : callable;
  state : future_state
}.

(** [std::function<void()>]: default constructed, or the closure
    [[task]() { task->operator()(); }] over the task at address [task]. *)
Inductive function := empty_function | invoke_task (task : nat).

(** Where a worker thread is in [worker_loop]. *)
Inductive worker :=
  | at_wait_and_pop
  | running (task : function)
  | finished
  | terminated (e : exception).

(** The pool, with the [heap] of packaged tasks that its closures and the
    futures it handed out point into. *)
Record thread_pool := {
  task_queue_ : Queue.thread_safe_queue function;
  workers_ : list worker;
  shutdown_ : bool;
  heap : list packaged_task
}.

Local Abbreviation result A := (outcome thread_pool A).

Definition set_queue (q : Queue.thread_safe_queue function) (p : thread_pool)
    : thread_pool :=
  {| task_queue_ := q; workers_ := workers_ p;
     shutdown_ := shutdown_ p; heap := heap p |}.

Definition set_worker (i : nat) (w : worker) (p : thread_pool) : thread_pool :=
  {| task_queue_ := task_queue_ p; workers_ := <[i:=w]> (workers_ p);
     shutdown_ := shutdown_ p; heap := heap p |}.

Definition set_heap (h : list packaged_task) (p : thread_pool) : thread_pool :=
  {| task_queue_ := task_queue_ p; workers_ := workers_ p;
     shutdown_ := shutdown_ p; heap := h |}.

Definition set_shutdown (b : bool) (p : thread_pool) : thread_pool :=
  {| task_queue_ := task_queue_ p; workers_ := workers_ p;
     shutdown_ := b; heap := heap p |}.

(** *** Construction *)

(** [unsigned int] has 32 value bits. *)
Definition UINT_WIDTH : Z := 32%Z.

(** [std::thread::hardware_concurrency() - 1], in [unsigned int]; the
    result fits [size_t], which is at least as wide. *)
Definition hardware_concurrency_minus_one (hardware_concurrency : Z) : Z :=
  ((hardware_concurrency - 1) `mod` 2 ^ UINT_WIDTH)%Z.

(** The worker count the constructor settles on; [hardware_concurrency]
    is what [std::thread::hardware_concurrency()] answers. *)
Definition resolve_num_threads (num_threads hardware_concurrency : Z) : Z :=
  if (num_threads =? 0)%Z then
    let num_threads := hardware_concurrency_minus_one hardware_concurrency in
    if (num_threads =? 0)%Z then 1%Z else num_threads
  else num_threads.

(** The default the spec asks for when the count is zero: the available
    hardware parallelism minus one, floored at one. *)
Definition spec_default_thread_count (hardware_concurrency : Z) : Z :=
  Z.max (hardware_concurrency - 1) 1.

(** [thread_pool(size_t num_threads)]: every worker starts at the top of
    [worker_loop]. *)
Definition construct (num_threads hardware_concurrency : Z) : thread_pool :=
  {| task_queue_ := Queue.make;
     workers_ :=
       replicate (Z.to_nat (resolve_num_threads num_threads
                                                hardware_concurrency))
                 at_wait_and_pop;
     shutdown_ := false;
     heap := [] |}.

Definition thread_count (p : thread_pool) : Z :=
  Z.of_nat (length (workers_ p)).

Definition is_shutdown (p : thread_pool) : bool := shutdown_ p.

(** *** Running a task *)

(** [task->operator()()]: the first call runs the callable and stores what it
    returned or raised in the shared state; a later call raises. *)
Definition run_packaged_task (task : nat) (h : list packaged_task)
    : outcome (list packaged_task) unit :=
  match h !! task with
  | None => Throws (future_error no_state) h
  | Some pt =>
      match state pt with
      | pending =>
          Returns tt (<[task := {| func := func pt;
                                   state := settle (func pt ()) |}]> h)
      | _ => Throws (future_error promise_already_satisfied) h
      end
  end.

(** [task()] on a [std::function<void()>]. *)
Definition call_function (task : function) (h : list packaged_task)
    : outcome (list packaged_task) unit :=
  match task with
  | empty_function => Throws bad_function_call h
  | invoke_task t => run_packaged_task t h
  end.

(** *** submit *)

(** The new task takes the next free address; the future that is returned
    is that address.  When [push] raises, unwinding destroys the future
    and the only owner of the task. *)
Definition submit (f : callable) (p : thread_pool) : result nat :=
  let task := length (heap p) in
  let h := heap p ++ [{| func := f; state := pending |}] in
  match Queue.push (invoke_task task) (task_queue_ p) with
  | Returns _ q => Returns task (set_heap h (set_queue q p))
  | Throws e _ => Throws e p
  | Blocks => Blocks
  end.

(** *** worker_loop, one transition at a time *)

(** [if (!task_queue_.wait_and_pop(task)) break;] by worker [i]. *)
Definition worker_pop (i : nat) (p : thread_pool) : option thread_pool :=
  match workers_ p !! i with
  | Some at_wait_and_pop =>
      match Queue.wait_and_pop_ref empty_function (task_queue_ p) with
      | Returns (true, task) q => Some (set_worker i (running task) (set_queue q p))
      | Returns (false, _) q => Some (set_worker i finished (set_queue q p))
      | Throws e q => Some (set_worker i (terminated e) (set_queue q p))
      | Blocks => None
      end
  | _ => None
  end.

(** [task();] by worker [i], outside the lock.  An exception that leaves
    [task()] leaves the thread function. *)
Definition worker_run (i : nat) (p : thread_pool) : option thread_pool :=
  match workers_ p !! i with
  | Some (running task) =>
      match call_function task (heap p) with
      | Returns _ h => Some (set_worker i at_wait_and_pop (set_heap h p))
      | Throws e h => Some (set_worker i (terminated e) (set_heap h p))
      | Blocks => None
      end
  | _ => None
  end.

(** *** shutdown, one transition at a time *)

(** [shutdown_.exchange(true)]: the old flag, and the pool with the flag
    set. *)
Definition shutdown_exchange (p : thread_pool) : bool * thread_pool :=
  (shutdown_ p, set_shutdown true p).

(** [task_queue_.shutdown();] *)
Definition shutdown_close (p : thread_pool) : thread_pool :=
  set_queue (state_after (Queue.shutdown (task_queue_ p)) (task_queue_ p)) p.

(** The loop over [workers_]: [worker.join()] returns once that worker has
    left [worker_loop]. *)
Fixpoint join_workers (ws : list worker) : option unit :=
  match ws with
  | [] => Some tt
  | finished :: ws' => join_workers ws'
  | _ :: _ => None
  end.

Definition shutdown_join (p : thread_pool) : result unit :=
  match join_workers (workers_ p) with
  | Some _ => Returns tt p
  | None => Blocks
  end.

(** *** wait_all *)

Definition barrier : callable := λ _, returned void.

(** The first loop: [n] barriers are still to be submitted. *)
Fixpoint submit_barriers (n : nat) (p : thread_pool) : result (list nat) :=
  match n with
  | O => Returns [] p
  | S n' =>
      match submit barrier p with
      | Returns b p' =>
          match submit_barriers n' p' with
          | Returns bs p'' => Returns (b :: bs) p''
          | Throws e p'' => Throws e p''
          | Blocks => Blocks
          end
      | Throws e p' => Throws e p'
      | Blocks => Blocks
      end
  end.

Definition wait_all_submit (p : thread_pool) : result (list nat) :=
  submit_barriers (length (workers_ p)) p.

(** [future.wait()] returns once the shared state is no longer pending. *)
Definition future_wait (fut : nat) (p : thread_pool) : option unit :=
  match heap p !! fut with
  | Some {| state := pending |} => None
  | Some _ => Some tt
  | None => None
  end.

(** The second loop, looked at in state [p]. *)
Fixpoint wait_barriers (barriers : list nat) (p : thread_pool) : option unit :=
  match barriers with
  | [] => Some tt
  | b :: barriers' =>
      match future_wait b p with
      | Some _ => wait_barriers barriers' p
      | None => None
      end
  end.

Definition wait_all_wait (barriers : list nat) (p : thread_pool) : result unit :=
  match wait_barriers barriers p with
  | Some _ => Returns tt p
  | None => Blocks
  end.

(** *** Interleavings *)

(** What one thread does in one transition of the pool. *)
Inductive action :=
  | do_submit (f : callable)
  | do_worker_pop (i : nat)
  | do_worker_run (i : nat)
  | do_shutdown_exchange
  | do_shutdown_close.

(** [None]: the thread cannot take that transition in [p].  A [submit]
    that raises is a transition that changes nothing.  The queue is
    closed only by a thread that has set the pool's flag. *)
Definition step (a : action) (p : thread_pool) : option thread_pool :=
  match a with
  | do_submit f =>
      match submit f p with
      | Returns _ p' => Some p'
      | Throws _ p' => Some p'
      | Blocks => None
      end
  | do_worker_pop i => worker_pop i p
  | do_worker_run i => worker_run i p
  | do_shutdown_exchange => Some (snd (shutdown_exchange p))
  | do_shutdown_close =>
      if shutdown_ p then Some (shutdown_close p) else None
  end.

Fixpoint run (schedule : list action) (p : thread_pool) : option thread_pool :=
  match schedule with
  | [] => Some p
  | a :: schedule' =>
      match step a p with
      | Some p' => run schedule' p'
      | None => None
      end
  end.

Definition worker_action (a : action) : bool :=
  match a with
  | do_worker_pop _ | do_worker_run _ => true
  | _ => false
  end.

(** The state of the future at address [fut]. *)
Definition future_of (fut : nat) (p : thread_pool) : option future_state :=
  state <$> heap p !! fut.

(** *** The books of the pool *)

Definition queued (t : function) (p : thread_pool) : Prop :=
  t ∈ Queue.queue_ (task_queue_ p).

Definition run_by (i : nat) (t : function) (p : thread_pool) : Prop :=
  workers_ p !! i = Some (running t).

(** [t] is the closure over a task whose shared state is still pending. *)
Definition unsettled (t : function) (p : thread_pool) : Prop :=
  ∃ task pt,
    t = invoke_task task ∧ heap p !! task = Some pt ∧ state pt = pending.

(** What holds of a pool from its construction on: a closure is in the
    queue once or with one worker, never both; the tasks that are queued
    or running are those whose future is pending; a settled future holds
    what its callable returned or raised; no worker has lost its thread
    to an exception; and a worker leaves its loop only when the queue is
    closed and drained. *)
Record consistent (p : thread_pool) : Prop := {
  workers_nonempty : workers_ p ≠ [];
  queue_nodup : NoDup (Queue.queue_ (task_queue_ p));
  queued_unsettled : ∀ t, queued t p → unsettled t p;
  running_unsettled : ∀ i t, run_by i t p → unsettled t p;
  running_not_queued : ∀ i t, run_by i t p → ¬ queued t p;
  running_once : ∀ i j t, run_by i t p → run_by j t p → i = j;
  pending_in_flight :
    ∀ task pt,
      heap p !! task = Some pt → state pt = pending →
      queued (invoke_task task) p ∨ ∃ i, run_by i (invoke_task task) p;
  settled_result :
    ∀ task pt,
      heap p !! task = Some pt → state pt ≠ pending →
      state pt = settle (func pt ());
  no_worker_terminated : ∀ i e, workers_ p !! i ≠ Some (terminated e);
  finished_drained :
    ∀ i,
      workers_ p !! i = Some finished →
      Queue.queue_ (task_queue_ p) = []
      ∧ Queue.shutdown_ (task_queue_ p) = true
}.

(** Tasks leave the queue in the order of their addresses: the queue holds
    the closures over the tasks from address [next] on, the tasks being
    run have lower addresses, and the only worker of a pool of one runs
    the task just below [next]. *)
Record in_order (next : nat) (p : thread_pool) : Prop := {
  next_le : next ≤ length (heap p);
  queue_in_order :
    Queue.queue_ (task_queue_ p)
    = invoke_task <$> seq next (length (heap p) - next);
  running_before : ∀ i task, run_by i (invoke_task task) p → task < next;
  single_worker :
    length (workers_ p) = 1 →
    ∀ i task, run_by i (invoke_task task) p → S task = next
}.

(** How a shared state changes over time: its callable stays, and its
    state changes at most once, from pending to what the callable did. *)
Definition evolves (pt pt' : packaged_task) : Prop :=
  func pt' = func pt
  ∧ (state pt' = state pt
     ∨ (state pt = pending ∧ state pt' = settle (func pt ()))).

(** An upper bound on the worker transitions still to come once the
    queue is closed. *)
Definition worker_weight (w : worker) : nat :=
  match w with
  | at_wait_and_pop => 1
  | running _ => 2
  | finished | terminated _ => 0
  end.

Definition work_left (p : thread_pool) : nat :=
  2 * length (Queue.queue_ (task_queue_ p))
  + sum_list (worker_weight <$> workers_ p).

End thread_pool.
Arguments thread_pool : clear implicits.
Arguments callable : clear implicits.
Arguments action : clear implicits.
Arguments packaged_task : clear implicits.
Arguments retval : clear implicits.
Arguments call_result : clear implicits.
Arguments future_state : clear implicits.
End Pool.

(** * Properties of the queue *)

Section queue_facts.
Context {T : Type}.
Implicit Types (q : Queue.thread_safe_queue T) (items rest : list T).

Local Abbreviation Q items closed :=
  {| Queue.queue_ := items; Queue.shutdown_ := closed |}.

Lemma queue_eta q : Q (Queue.queue_ q) (Queue.shutdown_ q) = q.
Proof. by destruct q. Qed.

Lemma push_open value items :
  Queue.push value (Q items false) = Returns tt (Q (items ++ [value]) false).
Proof. reflexivity. Qed.

Lemma push_closed value items :
  Queue.push value (Q items true)
  = Throws (runtime_error "push() called on shutdown queue") (Q items true).
Proof. reflexivity. Qed.

Lemma push_all_open values items :
  Queue.push_all values (Q items false) = Returns tt (Q (items ++ values) false).
Proof.
  revert items. induction values as [|value values IH]; intros items; simpl.
  - by rewrite app_nil_r.
  - rewrite IH. by rewrite <- app_assoc.
Qed.

(** A pop of either kind takes the front item when there is one. *)
Lemma pop_front c (front : T) rest closed :
  Queue.pop c (Q (front :: rest) closed) = Returns (Some front) (Q rest closed).
Proof. by destruct c. Qed.

(** On a closed and empty queue neither pop blocks: both return empty. *)
Lemma pop_closed_empty c :
  Queue.pop c (Q (@nil T) true) = Returns None (Q [] true).
Proof. by destruct c. Qed.

Lemma pops_drain calls items rest closed :
  length calls = length items →
  Queue.pops calls (Q (items ++ rest) closed)
  = Returns (Some <$> items) (Q rest closed).
Proof.
  revert items. induction calls as [|c calls IH]; intros [|item items] Hlen;
    simplify_eq/=; [done|].
  rewrite pop_front. by rewrite IH.
Qed.

(** C1. Items pushed to a fresh queue are all still there after
    [shutdown()]: one pop per item, each by [try_pop] or by
    [wait_and_pop], returns the items in the order of the pushes, and the
    pop after the last item returns empty.  The same pops return the same
    items when the queue has not been shut down. *)
Theorem drain_after_shutdown items (calls : list Queue.pop_call) :
  length calls = length items →
  ∃ q1 q2 q3,
    Queue.push_all items Queue.make = Returns tt q1
    ∧ Queue.shutdown q1 = Returns tt q2
    ∧ Queue.queue_ q2 = items
    ∧ Queue.pops calls q2 = Returns (Some <$> items) q3
    ∧ (∀ c, Queue.pop c q3 = Returns None q3)
    ∧ Queue.pops calls q1 = Returns (Some <$> items) (Q [] false).
Proof.
  intros Hlen. exists (Q items false), (Q items true), (Q [] true).
  split; [apply (push_all_open items [])|].
  split; [done|]. split; [done|].
  split; [|split].
  - rewrite <- (app_nil_r items) at 1. by apply pops_drain.
  - apply pop_closed_empty.
  - rewrite <- (app_nil_r items) at 1. by apply pops_drain.
Qed.

(** *** wait_and_pop *)

Lemma wait_and_pop_front (front : T) rest closed :
  Queue.wait_and_pop (Q (front :: rest) closed)
  = Returns (Some front) (Q rest closed).
Proof. reflexivity. Qed.

Lemma wait_and_pop_empty closed :
  Queue.wait_and_pop (Q (@nil T) closed)
  = if closed then Returns None (Q [] true) else Blocks.
Proof. by destruct closed. Qed.

(** C3. [wait_and_pop] returns the front item and removes it whenever
    the queue holds an item; it returns empty exactly when the queue is
    closed and holds no item, and then changes nothing; on an open queue
    it never returns empty: with no item there it blocks. It never
    raises. *)
Theorem wait_and_pop_spec q :
  (∀ front rest,
     Queue.queue_ q = front :: rest →
     Queue.wait_and_pop q = Returns (Some front) (Q rest (Queue.shutdown_ q)))
  ∧ (∀ q',
       Queue.wait_and_pop q = Returns None q'
       ↔ Queue.queue_ q = [] ∧ Queue.shutdown_ q = true ∧ q' = q)
  ∧ (Queue.shutdown_ q = false → ∀ q', Queue.wait_and_pop q ≠ Returns None q')
  ∧ (Queue.wait_and_pop q = Blocks
     ↔ Queue.queue_ q = [] ∧ Queue.shutdown_ q = false)
  ∧ throws (Queue.wait_and_pop q) = false.
Proof.
  destruct q as [[|front rest] closed]; simpl.
  - rewrite wait_and_pop_empty. destruct closed; simpl.
    + split; [discriminate|]. split; [|split; [discriminate|]].
      * intros q'. split; [by intros [= <-]|by intros (_ & _ & ->)].
      * split; [split; [discriminate|by intros [_ [=]]]|done].
    + split; [discriminate|]. split; [|split; [discriminate|by split]].
      intros q'. split; [discriminate|by intros (_ & [=] & _)].
  - rewrite wait_and_pop_front. simpl.
    split; [by intros ?? [= <- <-]|].
    split; [intros q'; split; [discriminate|by intros ([=] & _)]|].
    split; [discriminate|]. split; [|done].
    split; [discriminate|by intros ([=] & _)].
Qed.

(** *** The closed flag *)

Lemma after_keeps_closed (c : Queue.call T) q :
  Queue.shutdown_ q = true → Queue.shutdown_ (Queue.after c q) = true.
Proof.
  destruct q as [items closed]; simpl; intros ->.
  destruct c as [| | | | | | elapsed | out elapsed | | | |];
    destruct items; try destruct elapsed; reflexivity.
Qed.

Lemma after_all_keeps_closed (cs : list (Queue.call T)) q :
  Queue.shutdown_ q = true → Queue.shutdown_ (Queue.after_all cs q) = true.
Proof.
  revert q. induction cs as [|c cs IH]; intros q Hq; [done|].
  apply IH. by apply after_keeps_closed.
Qed.

Lemma after_all_shutdowns n q :
  Queue.after_all (replicate (S n) Queue.call_shutdown) q
  = Q (Queue.queue_ q) true.
Proof.
  revert q. induction n as [|n IH]; intros q; [done|].
  change (Queue.after_all (replicate (S (S n)) Queue.call_shutdown) q)
    with (Queue.after_all (replicate (S n) Queue.call_shutdown)
            (Q (Queue.queue_ q) true)).
  by rewrite IH.
Qed.

(** C4. Once the closed flag is set, it stays set through every sequence
    of calls of the member functions, whatever they return or raise; and
    one or more calls of [shutdown()] on any queue leave exactly the
    items that were queued, with the flag set. *)
Theorem closed_is_monotonic q :
  (∀ cs : list (Queue.call T),
     Queue.shutdown_ q = true →
     Queue.shutdown_ (Queue.after_all cs q) = true)
  ∧ (∀ n,
       Queue.after_all (replicate (S n) Queue.call_shutdown) q
       = Q (Queue.queue_ q) true)
  ∧ Queue.destroy q = Queue.shutdown q.
Proof.
  split; [intros cs; apply after_all_keeps_closed|].
  split; [intros n; apply after_all_shutdowns|done].
Qed.

(** *** wait_for *)

Lemma after_quiet (c : Queue.call T) :
  Queue.produces c = false → Queue.closes c = false →
  Queue.after c (Q [] false) = Q [] false.
Proof. by destruct c as [| | | | | | [] | ? [] | | | |]. Qed.

Lemma after_all_quiet (cs : list (Queue.call T)) :
  Forall (λ c, Queue.produces c = false ∧ Queue.closes c = false) cs →
  Queue.after_all cs (Q [] false) = Q [] false.
Proof.
  induction 1 as [|c cs [Hp Hc] _ IH]; [done|].
  unfold Queue.after_all; simpl. by rewrite after_quiet.
Qed.

Lemma wait_for_never_throws elapsed q :
  throws (Queue.wait_for elapsed q) = false.
Proof. by destruct q as [[|front rest] []], elapsed. Qed.

(** C7. On an open queue that holds no item, and to which the calls [cs]
    of other threads bring no item and no shutdown, [wait_for] is still
    waiting before the deadline and returns empty once the timeout has
    elapsed, leaving the queue as it is.  On a closed queue with no item
    it returns empty, before or after the deadline.  In no state does
    [wait_for] raise. *)
Theorem wait_for_timeout_is_empty (cs : list (Queue.call T)) q elapsed :
  (Queue.queue_ q = [] → Queue.shutdown_ q = false →
   Forall (λ c, Queue.produces c = false ∧ Queue.closes c = false) cs →
   Queue.wait_for false (Queue.after_all cs q) = Blocks
   ∧ Queue.wait_for true (Queue.after_all cs q)
     = Returns None (Queue.after_all cs q))
  ∧ (Queue.queue_ q = [] → Queue.shutdown_ q = true →
     Queue.wait_for elapsed q = Returns None q)
  ∧ throws (Queue.wait_for elapsed q) = false.
Proof.
  split; [|split; [|apply wait_for_never_throws]].
  - destruct q as [items closed]; simpl. intros -> -> Hcs.
    by rewrite after_all_quiet.
  - destruct q as [items closed]; simpl. intros -> ->. by destruct elapsed.
Qed.

End queue_facts.

Lemma drain_after_shutdown_witness :
  ∃ q1 q2 q3,
    Queue.push_all [1; 2; 3] Queue.make = Returns tt q1
    ∧ Queue.shutdown q1 = Returns tt q2
    ∧ Queue.queue_ q2 = [1; 2; 3]
    ∧ Queue.pops [Queue.by_try_pop; Queue.by_wait_and_pop; Queue.by_try_pop] q2
      = Returns [Some 1; Some 2; Some 3] q3
    ∧ (∀ c, Queue.pop c q3 = Returns None q3)
    ∧ Queue.pops [Queue.by_try_pop; Queue.by_wait_and_pop; Queue.by_try_pop] q1
      = Returns [Some 1; Some 2; Some 3]
                {| Queue.queue_ := []; Queue.shutdown_ := false |}.
Proof.
  apply (drain_after_shutdown [1; 2; 3]
           [Queue.by_try_pop; Queue.by_wait_and_pop; Queue.by_try_pop]).
  reflexivity.
Defined.

(** * Properties of the pool *)

Section pool_facts.
Context {V : Type}.
Implicit Types (p : Pool.thread_pool V) (f g : Pool.callable V).
Implicit Types (t : Pool.function) (w : Pool.worker).
Implicit Types (h : list (Pool.packaged_task V)).
Implicit Types (a : Pool.action V) (schedule : list (Pool.action V)).

Local Abbreviation closed p := (Queue.shutdown_ (Pool.task_queue_ p)).
Local Abbreviation items p := (Queue.queue_ (Pool.task_queue_ p)).

(** *** Construction *)

Lemma resolve_num_threads_pos (num_threads hardware_concurrency : Z) :
  (0 ≤ num_threads)%Z →
  (0 < Pool.resolve_num_threads num_threads hardware_concurrency)%Z.
Proof.
  intros Hn. unfold Pool.resolve_num_threads.
  destruct (Z.eqb_spec num_threads 0) as [->|Hne]; [|lia].
  unfold Pool.hardware_concurrency_minus_one, Pool.UINT_WIDTH.
  pose proof (Z.mod_pos_bound (hardware_concurrency - 1) (2 ^ 32)) as Hmod.
  destruct (Z.eqb_spec ((hardware_concurrency - 1) `mod` 2 ^ 32) 0); lia.
Qed.

Lemma thread_count_construct (num_threads hardware_concurrency : Z) :
  (0 ≤ num_threads)%Z →
  Pool.thread_count (Pool.construct (V:=V) num_threads hardware_concurrency)
  = Pool.resolve_num_threads num_threads hardware_concurrency.
Proof.
  intros Hn. unfold Pool.thread_count, Pool.construct.
  cbn [Pool.workers_]. rewrite length_replicate.
  pose proof (resolve_num_threads_pos _ hardware_concurrency Hn). lia.
Qed.

Lemma consistent_construct (num_threads hardware_concurrency : Z) :
  (0 ≤ num_threads)%Z →
  Pool.consistent (Pool.construct (V:=V) num_threads hardware_concurrency).
Proof.
  intros Hn.
  pose proof (resolve_num_threads_pos _ hardware_concurrency Hn) as Hpos.
  unfold Pool.construct.
  split; unfold Pool.queued, Pool.run_by; cbn [Pool.workers_ Pool.task_queue_ Pool.heap
    Queue.queue_ Queue.shutdown_ Queue.make].
  - intros Hnil%(f_equal length). rewrite length_replicate in Hnil.
    simpl in Hnil. lia.
  - constructor.
  - by intros t ?%not_elem_of_nil.
  - by intros i t [[=] _]%lookup_replicate.
  - by intros i t [[=] _]%lookup_replicate.
  - by intros i j t [[=] _]%lookup_replicate.
  - intros task pt Hl. by rewrite lookup_nil in Hl.
  - intros task pt Hl. by rewrite lookup_nil in Hl.
  - by intros i e [[=] _]%lookup_replicate.
  - by intros i [[=] _]%lookup_replicate.
Qed.

(** *** submit *)

Lemma submit_closed f p :
  closed p = true → Pool.submit f p = Throws ClosedError p.
Proof. unfold Pool.submit, Queue.push. by intros ->. Qed.

Lemma submit_open f p :
  closed p = false →
  Pool.submit f p
  = Returns (length (Pool.heap p))
      (Pool.set_heap (Pool.heap p ++ [{| Pool.func := f; Pool.state := Pool.pending |}])
         (Pool.set_queue
            {| Queue.queue_ := items p ++ [Pool.invoke_task (length (Pool.heap p))];
               Queue.shutdown_ := false |} p)).
Proof. unfold Pool.submit, Queue.push. by intros ->. Qed.

Lemma unsettled_lt t p task :
  Pool.unsettled t p → t = Pool.invoke_task task → task < length (Pool.heap p).
Proof.
  intros (task' & pt & -> & Hl & _) [= <-]. by eapply lookup_lt_Some.
Qed.

Lemma unsettled_grow t p pt' :
  Pool.unsettled t p →
  Pool.unsettled t (Pool.set_heap (Pool.heap p ++ [pt']) p).
Proof.
  intros (task & pt & -> & Hl & Hs). exists task, pt. split; [done|].
  split; [|done]. simpl. rewrite lookup_app_l; [done|by eapply lookup_lt_Some].
Qed.

Lemma consistent_submit f p fut p' :
  Pool.consistent p → Pool.submit f p = Returns fut p' → Pool.consistent p'.
Proof.
  intros Hp. destruct (closed p) eqn:Hc.
  { by rewrite submit_closed. }
  rewrite submit_open by done. intros [= <- <-].
  destruct Hp as [Hw Hnd Hq Hr Hrq Hro Hpf Hs Ht Hf].
  destruct p as [[its cl] ws flag h]; simpl in *; subst cl.
  split; unfold Pool.queued, Pool.run_by in *; simpl in *.
  - done.
  - apply NoDup_app. split; [done|]. split; [|apply NoDup_singleton].
    intros t Ht' ->%list_elem_of_singleton.
    apply Hq in Ht'. eapply unsettled_lt in Ht'; [|done]. simpl in Ht'. lia.
  - intros t [Hin | ->%list_elem_of_singleton]%elem_of_app.
    + by apply (unsettled_grow t _ _ (Hq t Hin)).
    + eexists _, _. split; [done|]. simpl.
      split; [by apply list_lookup_middle|done].
  - intros i t Hi. by apply (unsettled_grow t _ _ (Hr i t Hi)).
  - intros i t Hi [Hin | ->%list_elem_of_singleton]%elem_of_app.
    + by eapply Hrq.
    + apply Hr in Hi. eapply unsettled_lt in Hi; [|done]. simpl in Hi. lia.
  - done.
  - intros task pt [[Hlt Hl]|[-> <-]]%lookup_snoc_Some Hst.
    + destruct (Hpf task pt Hl Hst) as [Hin|Hrun]; [|by right].
      left. apply elem_of_app. by left.
    + left. apply elem_of_app. right. by apply list_elem_of_singleton.
  - intros task pt [[Hlt Hl]|[-> <-]]%lookup_snoc_Some Hst; [by eapply Hs|done].
  - done.
  - intros i Hi. by destruct (Hf i Hi) as [_ [=]].
Qed.

(** *** worker_loop *)

Lemma worker_pop_cases i p p' :
  Pool.worker_pop i p = Some p' →
  Pool.workers_ p !! i = Some Pool.at_wait_and_pop
  ∧ ((∃ front rest,
        items p = front :: rest
        ∧ p' = Pool.set_worker i (Pool.running front)
                 (Pool.set_queue {| Queue.queue_ := rest;
                                    Queue.shutdown_ := closed p |} p))
     ∨ (items p = [] ∧ closed p = true
        ∧ p' = Pool.set_worker i Pool.finished p)).
Proof.
  unfold Pool.worker_pop.
  destruct (Pool.workers_ p !! i) as [[]|] eqn:Hi; try done.
  destruct p as [[[|front rest] cl] ws flag h]; simpl.
  - destruct cl; [|done]. intros [= <-]. split; [done|]. by right.
  - intros [= <-]. split; [done|]. left. by exists front, rest.
Qed.

Lemma worker_run_cases i p p' :
  Pool.worker_run i p = Some p' →
  ∃ t o,
    Pool.workers_ p !! i = Some (Pool.running t)
    ∧ Pool.call_function t (Pool.heap p) = o
    ∧ p' = match o with
           | Returns _ h =>
               Pool.set_worker i Pool.at_wait_and_pop (Pool.set_heap h p)
           | Throws e h =>
               Pool.set_worker i (Pool.terminated e) (Pool.set_heap h p)
           | Blocks => p
           end
    ∧ o ≠ Blocks.
Proof.
  unfold Pool.worker_run.
  destruct (Pool.workers_ p !! i) as [[| t | |]|] eqn:Hi; try done.
  intros Hrun. exists t, (Pool.call_function t (Pool.heap p)).
  split; [done|]. split; [done|].
  destruct (Pool.call_function t (Pool.heap p)); by simplify_eq.
Qed.

(** A task that is still pending runs to a settled future and hands the
    thread back. *)
Lemma call_function_unsettled t p :
  Pool.unsettled t p →
  ∃ task pt,
    t = Pool.invoke_task task ∧ Pool.heap p !! task = Some pt
    ∧ Pool.state pt = Pool.pending
    ∧ Pool.call_function t (Pool.heap p)
      = Returns tt (<[task := {| Pool.func := Pool.func pt;
                                 Pool.state := Pool.settle (Pool.func pt ()) |}]>
                      (Pool.heap p)).
Proof.
  intros (task & pt & -> & Hl & Hs). exists task, pt.
  do 3 (split; [done|]). simpl. unfold Pool.run_packaged_task.
  by rewrite Hl, Hs.
Qed.

Lemma settle_not_pending (r : Pool.call_result V) :
  Pool.settle r ≠ Pool.pending.
Proof. by destruct r. Qed.

Lemma consistent_worker_pop i p p' :
  Pool.consistent p → Pool.worker_pop i p = Some p' → Pool.consistent p'.
Proof.
  intros [Hw Hnd Hq Hr Hrq Hro Hpf Hs Ht Hf]
    [Hi [(front & rest & Hits & ->)|(Hits & Hcl & ->)]]%worker_pop_cases.
  - assert (i < length (Pool.workers_ p)) as Hlt by by eapply lookup_lt_Some.
    destruct p as [[its cl] ws flag h]; simpl in *; subst its.
    apply NoDup_cons in Hnd as [Hfront Hnd].
    unfold Pool.queued, Pool.run_by, Pool.unsettled in *; simpl in *.
    split; unfold Pool.queued, Pool.run_by, Pool.unsettled; simpl.
    + intros Hnil%(f_equal length). rewrite length_insert in Hnil.
      by destruct ws.
    + done.
    + intros t Hin. apply Hq. by right.
    + intros j t. rewrite list_lookup_insert. case_decide as Hd.
      * intros [= <-]. apply Hq. by left.
      * apply Hr.
    + intros j t. rewrite list_lookup_insert. case_decide as Hd.
      * by intros [= <-].
      * intros Hj Hin. apply (Hrq j t Hj). by right.
    + intros j k t. rewrite !list_lookup_insert.
      case_decide as Hd; case_decide as Hd'.
      * destruct Hd, Hd'. by subst.
      * intros [= <-] Hk. destruct (Hrq k front Hk). by left.
      * intros Hj [= <-]. destruct (Hrq j front Hj). by left.
      * apply Hro.
    + intros task pt Hl Hst.
      destruct (Hpf task pt Hl Hst) as [[->|Hin]%elem_of_cons|[j Hj]].
      * right. exists i. by rewrite list_lookup_insert_eq.
      * by left.
      * right. exists j. rewrite list_lookup_insert_ne; [done|].
        intros ->. congruence.
    + done.
    + intros j e. rewrite list_lookup_insert. case_decide; [done|apply Ht].
    + intros j. rewrite list_lookup_insert. case_decide; [done|].
      intros Hj. by destruct (Hf j Hj) as [[=] _].
  - destruct p as [[its cl] ws flag h]; simpl in *; subst its cl.
    unfold Pool.queued, Pool.run_by, Pool.unsettled in *; simpl in *.
    split; unfold Pool.queued, Pool.run_by, Pool.unsettled; simpl.
    + intros Hnil%(f_equal length). rewrite length_insert in Hnil.
      by destruct ws.
    + done.
    + done.
    + intros j t. rewrite list_lookup_insert. case_decide; [done|apply Hr].
    + intros j t. rewrite list_lookup_insert. case_decide; [done|apply Hrq].
    + intros j k t. rewrite !list_lookup_insert.
      repeat case_decide; try done. apply Hro.
    + intros task pt Hl Hst.
      destruct (Hpf task pt Hl Hst) as [Hin|[j Hj]]; [by left|].
      right. exists j. rewrite list_lookup_insert_ne; [done|].
      intros ->. congruence.
    + done.
    + intros j e. rewrite list_lookup_insert. case_decide; [done|apply Ht].
    + done.
Qed.

Lemma consistent_worker_run i p p' :
  Pool.consistent p → Pool.worker_run i p = Some p' →
  Pool.consistent p'
  ∧ ∃ task pt,
      Pool.workers_ p !! i = Some (Pool.running (Pool.invoke_task task))
      ∧ Pool.heap p !! task = Some pt
      ∧ Pool.state pt = Pool.pending
      ∧ p' = Pool.set_worker i Pool.at_wait_and_pop
               (Pool.set_heap
                  (<[task := {| Pool.func := Pool.func pt;
                                Pool.state := Pool.settle (Pool.func pt ()) |}]>
                     (Pool.heap p)) p).
Proof.
  intros [Hw Hnd Hq Hr Hrq Hro Hpf Hs Ht Hf]
    (t & o & Hi & Ho & -> & _)%worker_run_cases.
  destruct (call_function_unsettled t p (Hr i t Hi))
    as (task & pt & -> & Hl & Hst & Hcall).
  rewrite Hcall in Ho. subst o.
  split; [|by exists task, pt].
  assert (task < length (Pool.heap p)) as Hlt by by eapply lookup_lt_Some.
  assert (∀ t', t' ≠ Pool.invoke_task task → Pool.unsettled t' p →
            Pool.unsettled t'
              (Pool.set_worker i Pool.at_wait_and_pop
                 (Pool.set_heap
                    (<[task := {| Pool.func := Pool.func pt;
                                  Pool.state := Pool.settle (Pool.func pt ()) |}]>
                       (Pool.heap p)) p))) as Hkeep.
  { intros t' Hne (task' & pt' & -> & Hl' & Hst'). exists task', pt'.
    split; [done|]. split; [|done]. simpl.
    rewrite list_lookup_insert_ne; [done|congruence]. }
  destruct p as [[its cl] ws flag h].
  unfold Pool.queued, Pool.run_by in *; simpl in *.
  split; unfold Pool.queued, Pool.run_by; simpl.
  - intros Hnil%(f_equal length). rewrite length_insert in Hnil.
    by destruct ws.
  - done.
  - intros t' Hin. apply Hkeep; [|by apply Hq].
    intros ->. by apply (Hrq i _ Hi).
  - intros j t'. rewrite list_lookup_insert. case_decide as Hd; [done|].
    intros Hj. apply Hkeep; [|by eapply Hr].
    intros ->. destruct Hd. split; [|by eapply lookup_lt_Some].
    by apply (Hro i j (Pool.invoke_task task)).
  - intros j t'. rewrite list_lookup_insert. case_decide; [done|apply Hrq].
  - intros j k t'. rewrite !list_lookup_insert.
    repeat case_decide; try done. apply Hro.
  - intros task' pt'. rewrite list_lookup_insert. case_decide as Hd.
    + intros [= <-]. simpl. by intros ?%settle_not_pending.
    + intros Hl' Hst'.
      assert (task ≠ task') as Hne by (intros ->; by destruct Hd).
      destruct (Hpf task' pt' Hl' Hst') as [Hin|[j Hj]]; [by left|].
      right. exists j. rewrite list_lookup_insert_ne; [done|].
      intros ->. congruence.
  - intros task' pt'. rewrite list_lookup_insert. case_decide as Hd.
    + by intros [= <-].
    + apply Hs.
  - intros j e. rewrite list_lookup_insert. case_decide; [done|apply Ht].
  - intros j. rewrite list_lookup_insert. case_decide; [done|apply Hf].
Qed.

(** *** shutdown *)

Lemma consistent_shutdown_exchange p :
  Pool.consistent p → Pool.consistent (snd (Pool.shutdown_exchange p)).
Proof. by intros []. Qed.

Lemma consistent_shutdown_close p :
  Pool.consistent p → Pool.consistent (Pool.shutdown_close p).
Proof.
  intros [Hw Hnd Hq Hr Hrq Hro Hpf Hs Ht Hf].
  split; try done. intros i Hi. by destruct (Hf i Hi).
Qed.

(** *** Every transition keeps the books *)

Lemma consistent_step a p p' :
  Pool.consistent p → Pool.step a p = Some p' → Pool.consistent p'.
Proof.
  intros Hp. destruct a as [f | i | i | |]; simpl.
  - destruct (Pool.submit f p) as [fut p1 | e p1 |] eqn:Hsub; [| |done].
    + intros [= <-]. by eapply consistent_submit.
    + intros [= <-]. destruct (closed p) eqn:Hc.
      * rewrite submit_closed in Hsub by done. by simplify_eq.
      * by rewrite submit_open in Hsub.
  - by apply consistent_worker_pop.
  - intros Hrun. by apply (consistent_worker_run i p p').
  - intros [= <-]. by apply consistent_shutdown_exchange.
  - destruct (Pool.shutdown_ p); [|done]. intros [= <-].
    by apply consistent_shutdown_close.
Qed.

Lemma consistent_run schedule p p' :
  Pool.consistent p → Pool.run schedule p = Some p' → Pool.consistent p'.
Proof.
  revert p. induction schedule as [|a schedule IH]; intros p Hp; simpl.
  - by intros [= <-].
  - destruct (Pool.step a p) as [p1|] eqn:Hstep; [|done].
    apply IH. by eapply consistent_step.
Qed.

Lemma run_app schedule1 schedule2 p :
  Pool.run (schedule1 ++ schedule2) p
  = Pool.run schedule1 p ≫= Pool.run schedule2.
Proof.
  revert p. induction schedule1 as [|a schedule1 IH]; intros p; [done|].
  simpl. destruct (Pool.step a p); [apply IH|done].
Qed.

(** Every state of a pool built by the constructor keeps the books. *)
Lemma consistent_reachable num_threads hardware_concurrency schedule p :
  (0 ≤ num_threads)%Z →
  Pool.run schedule (Pool.construct num_threads hardware_concurrency) = Some p →
  Pool.consistent p.
Proof.
  intros Hn. apply consistent_run. by apply consistent_construct.
Qed.

(** *** The closed flag and the heap along a run *)

Lemma step_keeps_closed a p p' :
  closed p = true → Pool.step a p = Some p' → closed p' = true.
Proof.
  intros Hc. destruct a as [f | i | i | |]; simpl.
  - rewrite submit_closed by done. by intros [= <-].
  - intros [_ [(front & rest & _ & ->)|(_ & _ & ->)]]%worker_pop_cases; done.
  - intros (t & o & _ & _ & -> & _)%worker_run_cases. by destruct o.
  - by intros [= <-].
  - destruct (Pool.shutdown_ p); [|done]. by intros [= <-].
Qed.

Lemma run_keeps_closed schedule p p' :
  closed p = true → Pool.run schedule p = Some p' → closed p' = true.
Proof.
  revert p. induction schedule as [|a schedule IH]; intros p Hc; simpl.
  - by intros [= <-].
  - destruct (Pool.step a p) as [p1|] eqn:Hstep; [|done].
    apply IH. by eapply step_keeps_closed.
Qed.


Lemma run_packaged_task_heap task0 h task pt :
  h !! task = Some pt →
  ∃ pt', state_after (Pool.run_packaged_task task0 h) h !! task = Some pt'
         ∧ Pool.evolves pt pt'.
Proof.
  intros Hl. unfold Pool.run_packaged_task.
  destruct (h !! task0) as [pt0|] eqn:Hl0; simpl.
  - destruct (Pool.state pt0) eqn:Hst0; simpl;
      try (exists pt; split; [done|split; by auto]).
    rewrite list_lookup_insert. case_decide as Hd.
    + destruct Hd as [-> _]. simplify_eq. eexists. split; [done|].
      split; [done|]. right. by rewrite Hst0.
    + exists pt. split; [done|]. split; by auto.
  - exists pt. split; [done|]. split; by auto.
Qed.

Lemma step_heap a p p' task pt :
  Pool.step a p = Some p' → Pool.heap p !! task = Some pt →
  ∃ pt', Pool.heap p' !! task = Some pt' ∧ Pool.evolves pt pt'.
Proof.
  intros Hstep Hl.
  assert (∃ pt', Pool.heap p !! task = Some pt' ∧ Pool.evolves pt pt') as Hsame.
  { exists pt. split; [done|]. split; by auto. }
  destruct a as [f | i | i | |]; simpl in Hstep.
  - destruct (closed p) eqn:Hc.
    + rewrite submit_closed in Hstep by done. by simplify_eq.
    + rewrite submit_open in Hstep by done. simplify_eq. simpl.
      exists pt. split; [|split; by auto].
      rewrite lookup_app_l; [done|by eapply lookup_lt_Some].
  - by apply worker_pop_cases
      in Hstep as [_ [(front & rest & _ & ->)|(_ & _ & ->)]].
  - apply worker_run_cases in Hstep as (t & o & _ & Ho & -> & Hnb).
    destruct t as [|task0]; simpl in Ho; [by subst o|].
    destruct (run_packaged_task_heap task0 _ _ _ Hl) as (pt' & Hl' & Hev).
    rewrite Ho in Hl'. exists pt'. split; [|done]. by destruct o.
  - by simplify_eq.
  - destruct (Pool.shutdown_ p); by simplify_eq.
Qed.

Lemma evolves_trans (pt1 pt2 pt3 : Pool.packaged_task V) :
  Pool.evolves pt1 pt2 → Pool.evolves pt2 pt3 → Pool.evolves pt1 pt3.
Proof.
  intros [Hf1 Hs1] [Hf2 Hs2]. split; [congruence|].
  destruct Hs1 as [Hs1|[Hp1 Hs1]], Hs2 as [Hs2|[Hp2 Hs2]].
  - left. congruence.
  - right. split; congruence.
  - right. split; congruence.
  - rewrite Hs1 in Hp2. by apply settle_not_pending in Hp2.
Qed.

Lemma run_heap schedule p p' task pt :
  Pool.run schedule p = Some p' → Pool.heap p !! task = Some pt →
  ∃ pt', Pool.heap p' !! task = Some pt' ∧ Pool.evolves pt pt'.
Proof.
  revert p pt. induction schedule as [|a schedule IH]; intros p pt; simpl.
  - intros [= <-] Hl. exists pt. split; [done|]. split; by auto.
  - destruct (Pool.step a p) as [p1|] eqn:Hstep; [|done]. intros Hrun Hl.
    destruct (step_heap a p p1 task pt Hstep Hl) as (pt1 & Hl1 & Hev1).
    destruct (IH p1 pt1 Hrun Hl1) as (pt' & Hl' & Hev').
    exists pt'. split; [done|]. by eapply evolves_trans.
Qed.


(** C6. A callable that [submit] accepted and that worker [i] later
    holds as its running task: its future is pending until then; the
    worker's call of the task returns, stores in the future the value the
    callable returned, or the exception it raised, and puts the worker
    back at the top of its loop.  From then on the future keeps that
    result, no worker thread is ever lost to an exception, and [submit]
    on the open pool returns a new future. *)
Theorem submitted_task_settles_future
    (num_threads hardware_concurrency : Z) (before : list (Pool.action V))
    p f fut p1 (after : list (Pool.action V)) p2 i :
  (0 ≤ num_threads)%Z →
  Pool.run before (Pool.construct num_threads hardware_concurrency) = Some p →
  Pool.submit f p = Returns fut p1 →
  Pool.run after p1 = Some p2 →
  Pool.workers_ p2 !! i = Some (Pool.running (Pool.invoke_task fut)) →
  Pool.future_of fut p2 = Some Pool.pending
  ∧ ∃ p3,
      Pool.step (Pool.do_worker_run i) p2 = Some p3
      ∧ Pool.future_of fut p3
        = Some match f () with
               | Pool.returned r => Pool.ready r
               | Pool.raised e => Pool.failed e
               end
      ∧ Pool.workers_ p3 !! i = Some Pool.at_wait_and_pop
      ∧ ∀ later p4,
          Pool.run later p3 = Some p4 →
          Pool.future_of fut p4 = Pool.future_of fut p3
          ∧ (∀ j e, Pool.workers_ p4 !! j ≠ Some (Pool.terminated e))
          ∧ (∀ g, closed p4 = false →
               ∃ fut' p5, Pool.submit g p4 = Returns fut' p5 ∧ fut' ≠ fut).
Proof.
  intros Hn Hbefore Hsub Hafter Hi.
  pose proof (consistent_reachable _ _ _ _ Hn Hbefore) as Hp.
  pose proof (consistent_submit _ _ _ _ Hp Hsub) as Hp1.
  pose proof (consistent_run _ _ _ Hp1 Hafter) as Hp2.
  destruct (closed p) eqn:Hc; [by rewrite submit_closed in Hsub|].
  rewrite submit_open in Hsub by done. injection Hsub as <- <-.
  set (fut := length (Pool.heap p)) in *.
  destruct (run_heap after _ p2 fut {| Pool.func := f; Pool.state := Pool.pending |}
              Hafter) as (pt2 & Hl2 & Hf2 & _).
  { simpl. by apply list_lookup_middle. }
  simpl in Hf2.
  destruct (Pool.running_unsettled p2 Hp2 i _ Hi) as (? & pt & [= <-] & Hl & Hst).
  rewrite Hl2 in Hl. injection Hl as <-.
  split; [unfold Pool.future_of; by rewrite Hl2; simpl; rewrite Hst|].
  destruct (Pool.worker_run i p2) as [p3|] eqn:Hrun; last first.
  { unfold Pool.worker_run in Hrun. rewrite Hi in Hrun. simpl in Hrun.
    unfold Pool.run_packaged_task in Hrun. by rewrite Hl2, Hst in Hrun. }
  destruct (consistent_worker_run i p2 p3 Hp2 Hrun)
    as (Hp3 & task & pt & Hi' & Hl & _ & ->).
  rewrite Hi in Hi'. injection Hi' as <-.
  rewrite Hl2 in Hl. injection Hl as <-.
  assert (fut < length (Pool.heap p2)) as Hlt by by eapply lookup_lt_Some.
  set (p3 := Pool.set_worker i Pool.at_wait_and_pop _) in *.
  assert (Pool.heap p3 !! fut
          = Some {| Pool.func := Pool.func pt2;
                    Pool.state := Pool.settle (Pool.func pt2 ()) |}) as Hl3.
  { simpl. by apply list_lookup_insert_eq. }
  assert (Pool.future_of fut p3 = Some (Pool.settle (f ()))) as Hfut3.
  { unfold Pool.future_of. rewrite Hl3. simpl. by rewrite Hf2. }
  exists p3. split; [done|]. split; [done|]. split.
  - simpl. rewrite list_lookup_insert_eq; [done|by eapply lookup_lt_Some].
  - intros later p4 Hlater.
    pose proof (consistent_run _ _ _ Hp3 Hlater) as Hp4.
    destruct (run_heap later p3 p4 fut _ Hlater Hl3) as (pt4 & Hl4 & _ & Hev).
    split; [|split].
    + rewrite Hfut3. unfold Pool.future_of. rewrite Hl4. simpl in *.
      destruct Hev as [->|[Hpend _]]; [by rewrite Hf2|].
      by apply settle_not_pending in Hpend.
    + apply (Pool.no_worker_terminated p4 Hp4).
    + intros g Hc4. rewrite submit_open by done. eexists _, _.
      split; [done|]. apply lookup_lt_Some in Hl4. lia.
Qed.


(** *** Draining the closed queue *)

Lemma sum_weight_insert (ws : list Pool.worker) i w w' :
  ws !! i = Some w →
  sum_list (Pool.worker_weight <$> <[i:=w']> ws) + Pool.worker_weight w
  = sum_list (Pool.worker_weight <$> ws) + Pool.worker_weight w'.
Proof.
  revert i. induction ws as [|w0 ws IH]; intros [|i] Hi; simplify_eq/=.
  - lia.
  - specialize (IH i Hi). lia.
Qed.

Lemma worker_step_work_left a p p' :
  Pool.worker_action a = true → Pool.step a p = Some p' →
  Pool.work_left p' < Pool.work_left p.
Proof.
  destruct a as [f | i | i | |]; try done; intros _; simpl.
  - intros [Hi [(front & rest & Hits & ->)|(_ & _ & ->)]]%worker_pop_cases;
      unfold Pool.work_left; simpl.
    + pose proof (sum_weight_insert _ i _ (Pool.running front) Hi) as Hsum.
      rewrite Hits. simpl in *. lia.
    + pose proof (sum_weight_insert _ i _ Pool.finished Hi) as Hsum.
      simpl in *. lia.
  - intros (t & o & Hi & _ & -> & Hnb)%worker_run_cases.
    unfold Pool.work_left. destruct o as [[] h | e h |]; [| |done]; simpl.
    + pose proof (sum_weight_insert _ i _ Pool.at_wait_and_pop Hi) as Hsum.
      simpl in *. lia.
    + pose proof (sum_weight_insert _ i _ (Pool.terminated e) Hi) as Hsum.
      simpl in *. lia.
Qed.

Lemma run_work_left schedule p p' :
  Forall (λ a, Pool.worker_action a = true) schedule →
  Pool.run schedule p = Some p' →
  length schedule + Pool.work_left p' ≤ Pool.work_left p.
Proof.
  intros Hall. revert p.
  induction Hall as [|a schedule Ha _ IH]; intros p; simpl.
  - intros [= <-]. lia.
  - destruct (Pool.step a p) as [p1|] eqn:Hstep; [|done]. intros Hrun.
    specialize (IH p1 Hrun).
    pose proof (worker_step_work_left a p p1 Ha Hstep). lia.
Qed.

Lemma join_workers_Some (ws : list Pool.worker) :
  Pool.join_workers ws = Some () → ∀ i w, ws !! i = Some w → w = Pool.finished.
Proof.
  induction ws as [|[] ws IH]; simpl; try done.
  intros Hj [|i] w; simpl; [by intros [= <-]|by apply IH].
Qed.

Lemma join_workers_None (ws : list Pool.worker) :
  Pool.join_workers ws = None → ∃ i w, ws !! i = Some w ∧ w ≠ Pool.finished.
Proof.
  induction ws as [|w0 ws IH]; [done|]. simpl.
  destruct w0; try (intros _; by eexists 0, _).
  intros (i & w & Hi & Hne)%IH. by exists (S i), w.
Qed.

(** While [join] is blocked on a closed queue, some worker can move. *)
Lemma worker_progress p :
  Pool.consistent p → closed p = true → Pool.shutdown_join p = Blocks →
  ∃ a p', Pool.worker_action a = true ∧ Pool.step a p = Some p'.
Proof.
  intros Hp Hc. unfold Pool.shutdown_join.
  destruct (Pool.join_workers (Pool.workers_ p)) eqn:Hj; [done|]. intros _.
  apply join_workers_None in Hj as (i & w & Hi & Hne).
  destruct w as [| t | | e]; [| |done|].
  - exists (Pool.do_worker_pop i). simpl. unfold Pool.worker_pop.
    rewrite Hi. destruct p as [[[|front rest] cl] ws flag h]; simpl in *;
      subst cl; by eexists.
  - exists (Pool.do_worker_run i). simpl. unfold Pool.worker_run. rewrite Hi.
    destruct (call_function_unsettled t p (Pool.running_unsettled p Hp i t Hi))
      as (task & pt & _ & _ & _ & ->).
    by eexists.
  - by destruct (Pool.no_worker_terminated p Hp i e).
Qed.

Lemma drain_exists n p :
  Pool.work_left p ≤ n → Pool.consistent p → closed p = true →
  ∃ schedule p',
    Forall (λ a, Pool.worker_action a = true) schedule
    ∧ Pool.run schedule p = Some p'
    ∧ Pool.shutdown_join p' = Returns () p'.
Proof.
  revert p. induction n as [|n IH]; intros p Hle Hp Hc.
  - destruct (Pool.shutdown_join p) as [[] p0 | e p0 |] eqn:Hj.
    + exists [], p. split; [done|]. split; [done|].
      unfold Pool.shutdown_join in *.
      by destruct (Pool.join_workers (Pool.workers_ p)).
    + unfold Pool.shutdown_join in Hj.
      by destruct (Pool.join_workers (Pool.workers_ p)).
    + destruct (worker_progress p Hp Hc Hj) as (a & p1 & Ha & Hstep).
      pose proof (worker_step_work_left a p p1 Ha Hstep). lia.
  - destruct (Pool.shutdown_join p) as [[] p0 | e p0 |] eqn:Hj.
    + exists [], p. split; [done|]. split; [done|].
      unfold Pool.shutdown_join in *.
      by destruct (Pool.join_workers (Pool.workers_ p)).
    + unfold Pool.shutdown_join in Hj.
      by destruct (Pool.join_workers (Pool.workers_ p)).
    + destruct (worker_progress p Hp Hc Hj) as (a & p1 & Ha & Hstep).
      pose proof (worker_step_work_left a p p1 Ha Hstep).
      destruct (IH p1) as (schedule & p' & Hall & Hrun & Hjoin);
        [lia|by eapply consistent_step|by eapply step_keeps_closed|].
      exists (a :: schedule), p'. split; [by constructor|].
      split; [|done]. simpl. by rewrite Hstep.
Qed.

(** When [join] has returned, the queue is empty and every future holds
    what its callable returned or raised. *)
Lemma joined_settled p :
  Pool.consistent p → Pool.shutdown_join p = Returns () p →
  items p = []
  ∧ ∀ task pt,
      Pool.heap p !! task = Some pt →
      Pool.state pt = Pool.settle (Pool.func pt ()).
Proof.
  intros Hp. unfold Pool.shutdown_join.
  destruct (Pool.join_workers (Pool.workers_ p)) eqn:Hj; [|done]. intros _.
  destruct u. pose proof (join_workers_Some _ Hj) as Hfin.
  assert (items p = []) as Hits.
  { destruct (Pool.workers_ p) as [|w ws] eqn:Hws.
    - by destruct (Pool.workers_nonempty p Hp).
    - apply (Pool.finished_drained p Hp 0). rewrite Hws. simpl.
      f_equal. by apply (Hfin 0). }
  split; [done|]. intros task pt Hl.
  apply (Pool.settled_result p Hp task pt Hl). intros Hst.
  destruct (Pool.pending_in_flight p Hp task pt Hl Hst) as [Hq|[i Hi]].
  - unfold Pool.queued in Hq. rewrite Hits in Hq. by apply not_elem_of_nil in Hq.
  - unfold Pool.run_by in Hi. by apply Hfin in Hi.
Qed.

(** C9. The destructor of a pool on which [shutdown()] was never called
    goes through the whole of [shutdown()]: it sets the flag, closes the
    queue with the queued tasks still in it, and joins the workers.
    However the workers are scheduled from there, they move at most
    [work_left] times, one of them can move as long as [join] is blocked,
    and some schedule lets [join] return.  Once it has returned the queue
    is empty and the future of every task the pool ever accepted holds
    what its callable returned or raised: none is pending. *)
Theorem destructor_drains_queue
    (num_threads hardware_concurrency : Z) schedule p :
  (0 ≤ num_threads)%Z →
  Pool.run schedule (Pool.construct num_threads hardware_concurrency) = Some p →
  Pool.shutdown_ p = false →
  let closing := Pool.shutdown_close (snd (Pool.shutdown_exchange p)) in
  fst (Pool.shutdown_exchange p) = false
  ∧ closed closing = true
  ∧ items closing = items p
  ∧ (∃ workers p',
       Forall (λ a, Pool.worker_action a = true) workers
       ∧ Pool.run workers closing = Some p'
       ∧ Pool.shutdown_join p' = Returns () p')
  ∧ (∀ workers p',
       Forall (λ a, Pool.worker_action a = true) workers →
       Pool.run workers closing = Some p' →
       length workers ≤ Pool.work_left closing
       ∧ (Pool.shutdown_join p' = Blocks →
          ∃ a p'', Pool.worker_action a = true ∧ Pool.step a p' = Some p'')
       ∧ (Pool.shutdown_join p' = Returns () p' →
          items p' = []
          ∧ ∀ fut pt,
              Pool.heap p !! fut = Some pt →
              Pool.future_of fut p' = Some (Pool.settle (Pool.func pt ())))).
Proof.
  intros Hn Hrun Hflag closing.
  pose proof (consistent_reachable _ _ _ _ Hn Hrun) as Hp.
  assert (Pool.consistent closing) as Hclosing.
  { by apply consistent_shutdown_close, consistent_shutdown_exchange. }
  assert (closed closing = true) as Hc by done.
  split; [done|]. split; [done|]. split; [done|]. split.
  - by apply (drain_exists (Pool.work_left closing)).
  - intros workers p' Hall Hworkers.
    pose proof (consistent_run _ _ _ Hclosing Hworkers) as Hp'.
    pose proof (run_keeps_closed _ _ _ Hc Hworkers) as Hc'.
    split; [|split].
    + pose proof (run_work_left _ _ _ Hall Hworkers). lia.
    + by apply worker_progress.
    + intros Hjoin. destruct (joined_settled p' Hp' Hjoin) as [Hits Hset].
      split; [done|]. intros fut pt Hl.
      destruct (run_heap workers closing p' fut pt Hworkers Hl)
        as (pt' & Hl' & Hf' & _).
      unfold Pool.future_of. rewrite Hl'. simpl.
      by rewrite (Hset fut pt' Hl'), Hf'.
Qed.

(** *** What wait_all submits, and what its barriers tell *)

(** Between the exchange and the close of a pool shutdown, [is_shutdown()]
    already answers true while [submit] still returns: the window closes
    with the next step of [shutdown()]. *)
Remark submit_between_exchange_and_close f p :
  closed p = false →
  Pool.is_shutdown (snd (Pool.shutdown_exchange p)) = true
  ∧ ∃ fut p', Pool.submit f (snd (Pool.shutdown_exchange p)) = Returns fut p'.
Proof. intros Hc. split; [done|]. rewrite submit_open by done. by eexists _, _. Qed.

Lemma submit_barriers_open n p :
  closed p = false →
  ∃ p',
    Pool.submit_barriers n p = Returns (seq (length (Pool.heap p)) n) p'
    ∧ items p' = items p ++ (Pool.invoke_task <$> seq (length (Pool.heap p)) n)
    ∧ Pool.heap p'
      = Pool.heap p
        ++ replicate n {| Pool.func := Pool.barrier; Pool.state := Pool.pending |}
    ∧ Pool.workers_ p' = Pool.workers_ p
    ∧ Pool.shutdown_ p' = Pool.shutdown_ p
    ∧ closed p' = false.
Proof.
  revert p. induction n as [|n IH]; intros p Hc; simpl.
  - exists p. by rewrite !app_nil_r.
  - rewrite submit_open by done.
    edestruct IH as (p' & -> & Hits & Hheap & Hws & Hflag & Hc'); [|exists p'].
    { done. }
    simpl in *. rewrite length_app, Nat.add_1_r in *.
    split; [done|]. rewrite Hits, Hheap, <- !app_assoc. done.
Qed.

(** On an open pool the first loop of [wait_all] submits one barrier per
    worker, and changes neither the workers nor the shutdown flags. *)
Lemma wait_all_submit_open p :
  closed p = false →
  ∃ barriers p',
    Pool.wait_all_submit p = Returns barriers p'
    ∧ Z.of_nat (length barriers) = Pool.thread_count p
    ∧ Pool.workers_ p' = Pool.workers_ p
    ∧ Pool.shutdown_ p' = Pool.shutdown_ p
    ∧ closed p' = false.
Proof.
  intros Hc. unfold Pool.wait_all_submit, Pool.thread_count.
  destruct (submit_barriers_open (length (Pool.workers_ p)) p Hc)
    as (p' & -> & _ & _ & Hws & Hflag & Hc').
  eexists _, p'. split; [done|]. by rewrite length_seq.
Qed.

Lemma in_order_construct (num_threads hardware_concurrency : Z) :
  Pool.in_order 0 (Pool.construct (V:=V) num_threads hardware_concurrency).
Proof.
  split; unfold Pool.run_by; simpl; [done|done| |].
  - by intros i task [[=] _]%lookup_replicate.
  - by intros _ i task [[=] _]%lookup_replicate.
Qed.

Lemma in_order_step a p p' next :
  Pool.in_order next p → Pool.step a p = Some p' →
  ∃ next', Pool.in_order next' p'.
Proof.
  intros [Hle Hq Hrun Hone]. destruct a as [f | i | i | |]; simpl.
  - destruct (closed p) eqn:Hc.
    + rewrite submit_closed by done. intros [= <-]. by exists next.
    + rewrite submit_open by done. intros [= <-]. exists next.
      split; unfold Pool.run_by in *; simpl; rewrite ?length_app; simpl.
      * lia.
      * rewrite Hq. replace (length (Pool.heap p) + 1 - next)
          with (S (length (Pool.heap p) - next)) by lia.
        rewrite seq_S, fmap_app. simpl. do 3 f_equal. lia.
      * done.
      * done.
  - intros [Hi [(front & rest & Hits & ->)|(_ & _ & ->)]]%worker_pop_cases.
    + rewrite Hits in Hq.
      destruct (length (Pool.heap p) - next) as [|n] eqn:Hn; [done|].
      simpl in Hq. injection Hq as -> ->. exists (S next).
      assert (i < length (Pool.workers_ p)) as Hlt by by eapply lookup_lt_Some.
      split; unfold Pool.run_by in *; simpl.
      * lia.
      * do 2 f_equal. lia.
      * intros j task. rewrite list_lookup_insert. case_decide.
        -- intros [= <-]. lia.
        -- intros Hj. specialize (Hrun j task Hj). lia.
      * rewrite length_insert. intros Hlen j task.
        rewrite list_lookup_insert. case_decide as Hd; [by intros [= <-]|].
        intros Hj. apply lookup_lt_Some in Hj. destruct Hd. split; lia.
    + exists next. split; unfold Pool.run_by in *; simpl; [done|done| |].
      * intros j task. rewrite list_lookup_insert. case_decide; [done|apply Hrun].
      * rewrite length_insert. intros Hlen j task.
        rewrite list_lookup_insert. case_decide; [done|by apply Hone].
  - intros (t & o & Hi & Ho & -> & Hnb)%worker_run_cases.
    exists next.
    assert (length (state_after o (Pool.heap p)) = length (Pool.heap p)) as Hlen.
    { subst o. destruct t as [|task]; simpl; [done|].
      unfold Pool.run_packaged_task.
      destruct (Pool.heap p !! task) as [pt|]; simpl; [|done].
      destruct (Pool.state pt); simpl; by rewrite ?length_insert. }
    simpl in Hlen.
    destruct o as [[] h | e h |]; [| |done]; simpl in *;
      (split; unfold Pool.run_by in *; simpl; rewrite ?Hlen, ?length_insert;
       [done|done| |]).
    + intros j task. rewrite list_lookup_insert. case_decide; [done|apply Hrun].
    + intros Hone' j task. rewrite list_lookup_insert.
      case_decide; [done|by apply Hone].
    + intros j task. rewrite list_lookup_insert. case_decide; [done|apply Hrun].
    + intros Hone' j task. rewrite list_lookup_insert.
      case_decide; [done|by apply Hone].
  - intros [= <-]. by exists next.
  - destruct (Pool.shutdown_ p); [|done]. intros [= <-]. by exists next.
Qed.

Lemma in_order_run schedule p p' next :
  Pool.in_order next p → Pool.run schedule p = Some p' →
  ∃ next', Pool.in_order next' p'.
Proof.
  revert p next. induction schedule as [|a schedule IH]; intros p next Hp; simpl.
  - intros [= <-]. by exists next.
  - destruct (Pool.step a p) as [p1|] eqn:Hstep; [|done].
    destruct (in_order_step a p p1 next Hp Hstep) as [next1 Hp1].
    by apply (IH p1 next1).
Qed.

(** Once the future of a barrier is settled, no task with a lower address
    is still in the queue: each has been taken by a worker.  In a pool of
    one worker each of them is settled as well. *)
Lemma settled_barrier_guarantee
    (num_threads hardware_concurrency : Z) schedule p barrier st task :
  (0 ≤ num_threads)%Z →
  Pool.run schedule (Pool.construct num_threads hardware_concurrency) = Some p →
  Pool.future_of barrier p = Some st → st ≠ Pool.pending →
  task < barrier →
  ¬ Pool.queued (Pool.invoke_task task) p
  ∧ (Pool.thread_count p = 1%Z →
     ∃ st', Pool.future_of task p = Some st' ∧ st' ≠ Pool.pending).
Proof.
  intros Hn Hrun Hb Hst Hlt.
  pose proof (consistent_reachable _ _ _ _ Hn Hrun) as Hp.
  destruct (in_order_run schedule _ p 0 (in_order_construct _ _) Hrun)
    as [next [Hle Hq Hbefore Hone]].
  unfold Pool.future_of in Hb.
  destruct (Pool.heap p !! barrier) as [ptb|] eqn:Hlb; [|done].
  injection Hb as <-.
  assert (barrier < length (Pool.heap p)) as Hblt by by eapply lookup_lt_Some.
  assert (barrier < next) as Hbnext.
  { destruct (decide (barrier < next)) as [|Hge]; [done|].
    destruct (Pool.queued_unsettled p Hp (Pool.invoke_task barrier))
      as (? & pt & [= <-] & Hl & Hpend); [|congruence].
    unfold Pool.queued. rewrite Hq. apply list_elem_of_fmap.
    exists barrier. split; [done|]. apply elem_of_seq. lia. }
  assert (¬ Pool.queued (Pool.invoke_task task) p) as Hnq.
  { unfold Pool.queued. rewrite Hq.
    intros (task' & [= <-] & Hin%elem_of_seq)%list_elem_of_fmap. lia. }
  split; [done|]. intros Hcount.
  destruct (lookup_lt_is_Some_2 (Pool.heap p) task) as [pt Hl]; [lia|].
  unfold Pool.future_of. rewrite Hl. eexists. split; [done|]. intros Hpend.
  destruct (Pool.pending_in_flight p Hp task pt Hl Hpend) as [Hqueued|[i Hi]];
    [done|].
  unfold Pool.thread_count in Hcount.
  assert (S task = next) by (apply (Hone ltac:(lia) i task Hi)). lia.
Qed.

(** *** The default worker count *)

(** With at least one hardware thread reported, the constructor settles
    on the default the spec asks for. *)
Lemma resolve_default_positive_concurrency (hardware_concurrency : Z) :
  (1 ≤ hardware_concurrency < 2 ^ Pool.UINT_WIDTH)%Z →
  Pool.resolve_num_threads 0 hardware_concurrency
  = Pool.spec_default_thread_count hardware_concurrency.
Proof.
  unfold Pool.resolve_num_threads, Pool.hardware_concurrency_minus_one,
    Pool.spec_default_thread_count, Pool.UINT_WIDTH.
  intros Hhw. simpl (0 =? 0)%Z. cbv iota.
  rewrite Z.mod_small by lia.
  destruct (Z.eqb_spec (hardware_concurrency - 1) 0); lia.
Qed.

(** C5. When [hardware_concurrency()] answers 0, the subtraction wraps
    in [unsigned int]: the constructor does not fall back to one worker,
    it asks for 4294967295 of them, where the spec's default is 1. *)
Theorem default_thread_count_wraps_at_zero :
  Pool.thread_count (Pool.construct (V:=V) 0 0) = 4294967295%Z
  ∧ Pool.resolve_num_threads 0 0 = 4294967295%Z
  ∧ Pool.spec_default_thread_count 0 = 1%Z.
Proof.
  split; [|by split]. by rewrite thread_count_construct.
Qed.

End pool_facts.

(** * The first step of a pool shutdown *)


(** * The barrier of wait_all *)

(** C8. A pool of two workers, one task submitted, then [wait_all]:
    worker 0 takes the task and is still running it while worker 1 takes
    and runs both barriers.  Both barrier futures are then settled, so the
    second loop of [wait_all] returns, while the future of the task that
    was submitted before the call is still pending. *)
Theorem wait_all_returns_before_task_completes :
  ∃ p1 p2 p3,
    Pool.submit (λ _, Pool.returned (Pool.value 7)) (Pool.construct 2 8)
    = Returns 0 p1
    ∧ Pool.wait_all_submit p1 = Returns [1; 2] p2
    ∧ Pool.run [Pool.do_worker_pop 0; Pool.do_worker_pop 1;
                Pool.do_worker_run 1; Pool.do_worker_pop 1;
                Pool.do_worker_run 1] p2 = Some p3
    ∧ Pool.wait_all_wait [1; 2] p3 = Returns () p3
    ∧ Pool.future_of 0 p3 = Some Pool.pending
    ∧ Pool.workers_ p3 !! 0 = Some (Pool.running (Pool.invoke_task 0))
    ∧ Pool.shutdown_ p3 = false
    ∧ Queue.shutdown_ (Pool.task_queue_ p3) = false.
Proof.
  eexists _, _, _.
  split; [reflexivity|]. split; [reflexivity|]. split; [reflexivity|].
  by repeat split.
Qed.

(** * The theorems at concrete inputs *)

Lemma wait_and_pop_spec_witness :
  Queue.wait_and_pop {| Queue.queue_ := [1; 2]; Queue.shutdown_ := false |}
  = Returns (Some 1) {| Queue.queue_ := [2]; Queue.shutdown_ := false |}
  ∧ (∀ q', Queue.wait_and_pop
             {| Queue.queue_ := [1; 2]; Queue.shutdown_ := false |}
           ≠ Returns None q').
Proof.
  destruct (wait_and_pop_spec
              {| Queue.queue_ := [1; 2]; Queue.shutdown_ := false |})
    as (Hfront & _ & Hopen & _).
  split.
  - apply (Hfront 1 [2]). reflexivity.
  - apply Hopen. reflexivity.
Defined.

Lemma closed_is_monotonic_witness :
  Queue.shutdown_
    (Queue.after_all
       [Queue.call_push 2; Queue.call_try_pop; Queue.call_wait_for true;
        Queue.call_shutdown; Queue.call_wait_and_pop; Queue.call_size]
       {| Queue.queue_ := [1]; Queue.shutdown_ := true |}) = true.
Proof.
  destruct (closed_is_monotonic
              {| Queue.queue_ := [1]; Queue.shutdown_ := true |})
    as (Hmono & _).
  apply Hmono. reflexivity.
Defined.

Lemma wait_for_timeout_is_empty_witness :
  Queue.wait_for true
    (Queue.after_all [Queue.call_try_pop; Queue.call_size] (Queue.make (T:=nat)))
  = Returns None (Queue.make (T:=nat)).
Proof.
  destruct (wait_for_timeout_is_empty
              [Queue.call_try_pop; Queue.call_size] (Queue.make (T:=nat)) true)
    as (Hopen & _).
  apply Hopen; [reflexivity|reflexivity|].
  repeat constructor.
Defined.


Lemma submitted_task_settles_future_witness :
  ∃ p1 p2,
    Pool.submit (λ _, Pool.returned (Pool.value (21 + 21))) (Pool.construct 1 4)
    = Returns 0 p1
    ∧ Pool.run [Pool.do_worker_pop 0] p1 = Some p2
    ∧ ∃ p3,
        Pool.step (Pool.do_worker_run 0) p2 = Some p3
        ∧ Pool.future_of 0 p3 = Some (Pool.ready (Pool.value 42)).
Proof.
  eexists _, _. split; [reflexivity|]. split; [reflexivity|].
  pose proof (λ p1 p2,
                submitted_task_settles_future (V:=nat) 1 4 []
                  (Pool.construct 1 4)
                  (λ _, Pool.returned (Pool.value (21 + 21))) 0 p1
                  [Pool.do_worker_pop 0] p2 0) as Hsettles.
  edestruct Hsettles as (_ & p3 & Hstep & Hfut & _);
    [lia|reflexivity|reflexivity|reflexivity|reflexivity|].
  exists p3. split; [exact Hstep|exact Hfut].
Defined.


Lemma destructor_drains_queue_witness :
  ∃ p,
    Pool.run [Pool.do_submit (λ _, Pool.returned (Pool.value 1));
              Pool.do_submit (λ _, Pool.raised bad_function_call);
              Pool.do_worker_pop 0]
      (Pool.construct (V:=nat) 2 8) = Some p
    ∧ ∃ workers p',
        Pool.run workers
          (Pool.shutdown_close (snd (Pool.shutdown_exchange p))) = Some p'
        ∧ Pool.shutdown_join p' = Returns () p'
        ∧ Pool.future_of 0 p' = Some (Pool.ready (Pool.value 1))
        ∧ Pool.future_of 1 p' = Some (Pool.failed bad_function_call).
Proof.
  eexists. split; [reflexivity|].
  pose proof (destructor_drains_queue (V:=nat) 2 8
                [Pool.do_submit (λ _, Pool.returned (Pool.value 1));
                 Pool.do_submit (λ _, Pool.raised bad_function_call);
                 Pool.do_worker_pop 0]) as Hdrains.
  edestruct Hdrains
    as (_ & _ & _ & (workers & p' & Hall & Hrun & Hjoin) & Hevery);
    [lia|reflexivity|reflexivity|].
  exists workers, p'. split; [exact Hrun|]. split; [exact Hjoin|].
  destruct (Hevery workers p' Hall Hrun) as (_ & _ & Hsettled).
  destruct (Hsettled Hjoin) as [_ Hfut].
  split.
  - exact (Hfut 0 {| Pool.func := λ _, Pool.returned (Pool.value 1);
                     Pool.state := Pool.pending |} eq_refl).
  - exact (Hfut 1 {| Pool.func := λ _, Pool.raised bad_function_call;
                     Pool.state := Pool.pending |} eq_refl).
Defined.

(** * More on the queue *)

Section queue_overloads.
Context {T : Type}.
Implicit Types (q : Queue.thread_safe_queue T) (cs : list (Queue.call T)).

(** The [bool] overloads of [try_pop], [wait_and_pop] and [wait_for] do
    what the [std::optional] overloads do: the same item, the same queue
    afterwards, blocked in the same states; and an overload that returns
    [false] has left [out] and the queue untouched. *)
Theorem ref_overloads_agree (out : T) elapsed q :
  Queue.as_optional (Queue.try_pop_ref out q) = Queue.try_pop q
  ∧ Queue.as_optional (Queue.wait_and_pop_ref out q) = Queue.wait_and_pop q
  ∧ Queue.as_optional (Queue.wait_for_ref out elapsed q)
    = Queue.wait_for elapsed q
  ∧ ∀ value q',
      Queue.try_pop_ref out q = Returns (false, value) q'
      ∨ Queue.wait_and_pop_ref out q = Returns (false, value) q'
      ∨ Queue.wait_for_ref out elapsed q = Returns (false, value) q' →
      value = out ∧ q' = q ∧ Queue.queue_ q = [].
Proof.
  destruct q as [[|front rest] closed].
  - split; [done|]. split; [by destruct closed|].
    split; [by destruct closed, elapsed|].
    intros value q' [H|[H|H]].
    + by injection H as <- <-.
    + destruct closed; [|done]. by injection H as <- <-.
    + destruct closed, elapsed; try done; by injection H as <- <-.
  - split; [done|]. split; [done|]. split; [done|].
    by intros value q' [H|[H|H]].
Qed.

(** Before its deadline [wait_for] is [wait_and_pop], and at its deadline
    it is [try_pop]: it takes the front item if there is one, whether or
    not the timeout has elapsed, and an elapsed timeout only turns
    blocking into an empty result. *)
Theorem wait_for_between_wait_and_try elapsed q :
  Queue.wait_for false q = Queue.wait_and_pop q
  ∧ Queue.wait_for true q = Queue.try_pop q
  ∧ (Queue.wait_and_pop q ≠ Blocks →
     Queue.wait_for elapsed q = Queue.wait_and_pop q).
Proof.
  destruct q as [[|front rest] []], elapsed; by repeat split.
Qed.

(** On an open queue [emplace] is [push] of the item built from its
    arguments.  On a queue that has been shut down it raises a
    [runtime_error] with a message of its own and changes nothing. *)
Theorem emplace_is_push {Args : Type} (construct : Args → T) (args : Args) q :
  (Queue.shutdown_ q = false →
   Queue.emplace construct args q = Queue.push (construct args) q)
  ∧ (Queue.shutdown_ q = true →
     Queue.emplace construct args q
     = Throws (runtime_error "emplace() called on shutdown queue") q).
Proof.
  unfold Queue.emplace, Queue.push. by split; intros ->.
Qed.

End queue_overloads.

Section queue_traffic.
Context {T : Type}.
Implicit Types (q : Queue.thread_safe_queue T) (cs : list (Queue.call T)).
Implicit Types (c : Queue.call T).

Lemma after_traffic c q :
  Queue.queue_ q ++ Queue.added c q
  = Queue.taken c q ++ Queue.queue_ (Queue.after c q).
Proof.
  destruct q as [[|front rest] closed].
  - destruct c as [| | | | | | elapsed | out elapsed | | | |];
      try destruct elapsed; by destruct closed.
  - destruct c as [| | | | | | elapsed | out elapsed | | | |];
      try destruct elapsed; destruct closed; simpl; by rewrite ?app_nil_r.
Qed.

Lemma after_all_cons c cs q :
  Queue.after_all (c :: cs) q = Queue.after_all cs (Queue.after c q).
Proof. reflexivity. Qed.

Lemma after_all_traffic cs q :
  Queue.queue_ q ++ Queue.all_added cs q
  = Queue.all_taken cs q ++ Queue.queue_ (Queue.after_all cs q).
Proof.
  revert q. induction cs as [|c cs IH]; intros q.
  - simpl. by rewrite app_nil_r.
  - rewrite after_all_cons. simpl.
    rewrite app_assoc, after_traffic, <- !app_assoc. by rewrite IH.
Qed.

(** No item is lost, duplicated or reordered, whatever the calls and
    whoever makes them: the items that were queued, followed by the items
    that [push] and [emplace] accepted, are the items that the pops handed
    out, followed by the items that are still queued.  On a queue that
    starts empty and ends empty the consumers got exactly what the
    producers put in, in that order. *)
Theorem no_item_lost_or_duplicated cs q :
  Queue.queue_ q ++ Queue.all_added cs q
  = Queue.all_taken cs q ++ Queue.queue_ (Queue.after_all cs q)
  ∧ (Queue.queue_ (Queue.after_all cs Queue.make) = [] →
     Queue.all_taken cs Queue.make = Queue.all_added cs (Queue.make (T:=T))).
Proof.
  split; [apply after_all_traffic|]. intros Hempty.
  pose proof (after_all_traffic cs Queue.make) as Htraffic.
  rewrite Hempty, app_nil_r in Htraffic. by rewrite <- Htraffic.
Qed.

(** [size()] counts what came in and has not gone out: after any calls it
    returns the items queued at the start plus those accepted minus those
    handed out, and [empty()] returns [true] exactly when that is zero.
    Neither changes the queue. *)
Theorem size_is_added_minus_taken cs q :
  ∃ n,
    Queue.size (Queue.after_all cs q) = Returns n (Queue.after_all cs q)
    ∧ length (Queue.queue_ q) + length (Queue.all_added cs q)
      = length (Queue.all_taken cs q) + n
    ∧ Queue.empty (Queue.after_all cs q)
      = Returns (bool_decide (n = 0)) (Queue.after_all cs q).
Proof.
  exists (length (Queue.queue_ (Queue.after_all cs q))).
  split; [done|]. split.
  - rewrite <- !length_app. by rewrite after_all_traffic.
  - unfold Queue.empty, Queue.queue_empty.
    by destruct (Queue.queue_ (Queue.after_all cs q)).
Qed.

Lemma added_closed c q : Queue.shutdown_ q = true → Queue.added c q = [].
Proof.
  destruct q as [its closed]; simpl. intros ->.
  by destruct c.
Qed.

Lemma all_added_closed cs q :
  Queue.shutdown_ q = true → Queue.all_added cs q = [].
Proof.
  revert q. induction cs as [|c cs IH]; intros q Hq; [done|]. simpl.
  rewrite added_closed by done. apply IH. by apply after_keeps_closed.
Qed.

(** After [shutdown()] the queue only drains: no call adds an item, and
    the items that were queued are those the pops have handed out since,
    in order, followed by those still queued. *)
Theorem closed_queue_only_drains cs q :
  Queue.shutdown_ q = true →
  Queue.all_added cs q = []
  ∧ Queue.queue_ q
    = Queue.all_taken cs q ++ Queue.queue_ (Queue.after_all cs q).
Proof.
  intros Hq. pose proof (after_all_traffic cs q) as Htraffic.
  rewrite all_added_closed, app_nil_r in Htraffic by done.
  by rewrite all_added_closed.
Qed.

End queue_traffic.

(** * More on the pool *)

Section pool_lifecycle.
Context {V : Type}.
Implicit Types (p : Pool.thread_pool V) (f g : Pool.callable V).
Implicit Types (t : Pool.function) (w : Pool.worker).
Implicit Types (a : Pool.action V) (schedule : list (Pool.action V)).

Local Abbreviation closed p := (Queue.shutdown_ (Pool.task_queue_ p)).
Local Abbreviation items p := (Queue.queue_ (Pool.task_queue_ p)).

Lemma step_thread_count a p p' :
  Pool.step a p = Some p' → Pool.thread_count p' = Pool.thread_count p.
Proof.
  unfold Pool.thread_count. destruct a as [f | i | i | |]; simpl.
  - destruct (closed p) eqn:Hc.
    + rewrite submit_closed by done. by intros [= <-].
    + rewrite submit_open by done. by intros [= <-].
  - intros [_ [(front & rest & _ & ->)|(_ & _ & ->)]]%worker_pop_cases;
      simpl; by rewrite length_insert.
  - intros (t & o & _ & _ & -> & _)%worker_run_cases.
    destruct o; simpl; by rewrite ?length_insert.
  - by intros [= <-].
  - destruct (Pool.shutdown_ p); [|done]. by intros [= <-].
Qed.

Lemma run_thread_count schedule p p' :
  Pool.run schedule p = Some p' → Pool.thread_count p' = Pool.thread_count p.
Proof.
  revert p. induction schedule as [|a schedule IH]; intros p; simpl.
  - by intros [= <-].
  - destruct (Pool.step a p) as [p1|] eqn:Hstep; [|done]. intros Hrun.
    rewrite (IH p1 Hrun). by eapply step_thread_count.
Qed.

(** The number of workers is settled by the constructor and never changes:
    whatever is submitted, run or shut down, [thread_count()] answers the
    count that was asked for, or, when zero was asked for and at least one
    hardware thread is reported, the hardware concurrency minus one,
    floored at one.  It is never zero. *)
Theorem thread_count_is_fixed
    (num_threads hardware_concurrency : Z) schedule p :
  (0 ≤ num_threads)%Z →
  Pool.run schedule (Pool.construct num_threads hardware_concurrency) = Some p →
  (1 ≤ Pool.thread_count p)%Z
  ∧ (num_threads ≠ 0%Z → Pool.thread_count p = num_threads)
  ∧ (num_threads = 0%Z →
     (1 ≤ hardware_concurrency < 2 ^ Pool.UINT_WIDTH)%Z →
     Pool.thread_count p = Z.max (hardware_concurrency - 1) 1).
Proof.
  intros Hn Hrun. rewrite (run_thread_count _ _ _ Hrun).
  rewrite thread_count_construct by done.
  pose proof (resolve_num_threads_pos _ hardware_concurrency Hn).
  split; [lia|]. split.
  - intros Hne. unfold Pool.resolve_num_threads.
    by destruct (Z.eqb_spec num_threads 0).
  - intros -> Hhw. by apply resolve_default_positive_concurrency.
Qed.

Lemma step_keeps_flag a p p' :
  Pool.shutdown_ p = true → Pool.step a p = Some p' →
  Pool.shutdown_ p' = true.
Proof.
  intros Hflag. destruct a as [f | i | i | |]; simpl.
  - destruct (closed p) eqn:Hc.
    + rewrite submit_closed by done. by intros [= <-].
    + rewrite submit_open by done. by intros [= <-].
  - by intros [_ [(front & rest & _ & ->)|(_ & _ & ->)]]%worker_pop_cases.
  - intros (t & o & _ & _ & -> & _)%worker_run_cases. by destruct o.
  - by intros [= <-].
  - rewrite Hflag. by intros [= <-].
Qed.

Lemma run_keeps_flag schedule p p' :
  Pool.shutdown_ p = true → Pool.run schedule p = Some p' →
  Pool.shutdown_ p' = true.
Proof.
  revert p. induction schedule as [|a schedule IH]; intros p Hflag; simpl.
  - by intros [= <-].
  - destruct (Pool.step a p) as [p1|] eqn:Hstep; [|done].
    apply IH. by eapply step_keeps_flag.
Qed.

(** The pool's own flag is as monotonic as the queue's: once
    [is_shutdown()] answers true it does so in every later state, and a
    later call of [shutdown()] finds the flag set at its first test, so it
    returns there with the pool as it is. *)
Theorem pool_shutdown_is_idempotent schedule p p' :
  Pool.is_shutdown p = true →
  Pool.run schedule p = Some p' →
  Pool.is_shutdown p' = true ∧ Pool.shutdown_exchange p' = (true, p').
Proof.
  unfold Pool.is_shutdown. intros Hflag Hrun.
  pose proof (run_keeps_flag _ _ _ Hflag Hrun) as Hflag'.
  split; [done|]. unfold Pool.shutdown_exchange, Pool.set_shutdown.
  rewrite Hflag'. f_equal. destruct p'; simpl in *. by subst.
Qed.

Lemma step_closed_flag a p p' :
  (closed p = true → Pool.shutdown_ p = true) →
  Pool.step a p = Some p' →
  closed p' = true → Pool.shutdown_ p' = true.
Proof.
  intros Hinv. destruct a as [f | i | i | |]; simpl.
  - destruct (closed p) eqn:Hc.
    + rewrite submit_closed by done. intros [= <-] _. by apply Hinv.
    + rewrite submit_open by done. by intros [= <-].
  - intros [_ [(front & rest & _ & ->)|(_ & _ & ->)]]%worker_pop_cases;
      simpl; apply Hinv.
  - intros (t & o & _ & _ & -> & _)%worker_run_cases.
    destruct o; simpl; apply Hinv.
  - by intros [= <-].
  - destruct (Pool.shutdown_ p) eqn:Hflag; [|done]. by intros [= <-].
Qed.

Lemma run_closed_flag schedule p p' :
  (closed p = true → Pool.shutdown_ p = true) →
  Pool.run schedule p = Some p' →
  closed p' = true → Pool.shutdown_ p' = true.
Proof.
  revert p. induction schedule as [|a schedule IH]; intros p Hinv; simpl.
  - by intros [= <-].
  - destruct (Pool.step a p) as [p1|] eqn:Hstep; [|done].
    apply IH. by eapply step_closed_flag.
Qed.

(** [submit] raises only on a pool that has been shut down: in every state
    of a constructed pool, an exception out of [submit] is [ClosedError],
    [is_shutdown()] answers true there, and the pool is unchanged; as long
    as [is_shutdown()] answers false, [submit] returns a future. *)
Theorem submit_raises_only_after_shutdown
    (num_threads hardware_concurrency : Z) schedule p f :
  (0 ≤ num_threads)%Z →
  Pool.run schedule (Pool.construct num_threads hardware_concurrency) = Some p →
  (∀ e p',
     Pool.submit f p = Throws e p' →
     e = ClosedError ∧ p' = p ∧ Pool.is_shutdown p = true)
  ∧ (Pool.is_shutdown p = false → ∃ fut p', Pool.submit f p = Returns fut p')
  ∧ Pool.submit f p ≠ Blocks.
Proof.
  intros Hn Hrun.
  assert (closed p = true → Pool.shutdown_ p = true) as Hinv.
  { by apply (run_closed_flag schedule
                (Pool.construct num_threads hardware_concurrency)). }
  unfold Pool.is_shutdown. destruct (closed p) eqn:Hc.
  - rewrite submit_closed by done. rewrite Hinv by done.
    split; [|done]. by intros e p' [= <- <-].
  - rewrite submit_open by done. split; [done|]. split; [|done].
    intros _. by eexists _, _.
Qed.

End pool_lifecycle.

Section pool_tasks.
Context {V : Type}.
Implicit Types (p : Pool.thread_pool V) (f g : Pool.callable V).
Implicit Types (t : Pool.function) (w : Pool.worker).
Implicit Types (a : Pool.action V) (schedule : list (Pool.action V)).

Local Abbreviation closed p := (Queue.shutdown_ (Pool.task_queue_ p)).
Local Abbreviation items p := (Queue.queue_ (Pool.task_queue_ p)).

(** A task is handed to at most one worker, at most once: in every state
    of a constructed pool its future is pending exactly while its closure
    is in the queue or with a worker; the closure is never in both places,
    never twice in the queue, and never with two workers. *)
Theorem task_is_in_one_place
    (num_threads hardware_concurrency : Z) schedule p task pt :
  (0 ≤ num_threads)%Z →
  Pool.run schedule (Pool.construct num_threads hardware_concurrency) = Some p →
  Pool.heap p !! task = Some pt →
  (Pool.state pt = Pool.pending
   ↔ Pool.queued (Pool.invoke_task task) p
     ∨ ∃ i, Pool.run_by i (Pool.invoke_task task) p)
  ∧ ¬ (Pool.queued (Pool.invoke_task task) p
       ∧ ∃ i, Pool.run_by i (Pool.invoke_task task) p)
  ∧ (∀ i j,
       Pool.run_by i (Pool.invoke_task task) p →
       Pool.run_by j (Pool.invoke_task task) p → i = j)
  ∧ NoDup (items p).
Proof.
  intros Hn Hrun Hl.
  pose proof (consistent_reachable _ _ _ _ Hn Hrun) as Hp.
  split; [split|].
  - by apply (Pool.pending_in_flight p Hp).
  - intros [Hq|[i Hi]].
    + destruct (Pool.queued_unsettled p Hp _ Hq) as (? & pt' & [= <-] & Hl' & Hst).
      congruence.
    + destruct (Pool.running_unsettled p Hp _ _ Hi)
        as (? & pt' & [= <-] & Hl' & Hst).
      congruence.
  - split; [|split].
    + intros [Hq [i Hi]]. by apply (Pool.running_not_queued p Hp i _ Hi).
    + intros i j. apply (Pool.running_once p Hp).
    + apply (Pool.queue_nodup p Hp).
Qed.

(** What workers take from the queue is always a task of the pool: every
    closure that is queued or with a worker calls a task that [submit]
    created, never an empty [std::function]. *)
Theorem workers_only_see_submitted_tasks
    (num_threads hardware_concurrency : Z) schedule p t :
  (0 ≤ num_threads)%Z →
  Pool.run schedule (Pool.construct num_threads hardware_concurrency) = Some p →
  Pool.queued t p ∨ (∃ i, Pool.run_by i t p) →
  ∃ task pt,
    t = Pool.invoke_task task ∧ Pool.heap p !! task = Some pt
    ∧ Pool.state pt = Pool.pending
    ∧ Pool.call_function t (Pool.heap p)
      = Returns ()
          (<[task := {| Pool.func := Pool.func pt;
                        Pool.state := Pool.settle (Pool.func pt ()) |}]>
             (Pool.heap p)).
Proof.
  intros Hn Hrun Hin.
  pose proof (consistent_reachable _ _ _ _ Hn Hrun) as Hp.
  apply call_function_unsettled. destruct Hin as [Hq|[i Hi]].
  - by apply (Pool.queued_unsettled p Hp).
  - by apply (Pool.running_unsettled p Hp i).
Qed.

(** A worker leaves [worker_loop] only by its [break]: while the queue is
    open every worker is waiting for a task or running one, a worker that
    has left did so on a closed and empty queue, and no worker thread ever
    ends by an exception. *)
Theorem workers_stay_until_drained
    (num_threads hardware_concurrency : Z) schedule p i w :
  (0 ≤ num_threads)%Z →
  Pool.run schedule (Pool.construct num_threads hardware_concurrency) = Some p →
  Pool.workers_ p !! i = Some w →
  (∀ e, w ≠ Pool.terminated e)
  ∧ (w = Pool.finished → items p = [] ∧ closed p = true)
  ∧ (closed p = false →
     w = Pool.at_wait_and_pop ∨ ∃ task, w = Pool.running (Pool.invoke_task task)).
Proof.
  intros Hn Hrun Hi.
  pose proof (consistent_reachable _ _ _ _ Hn Hrun) as Hp.
  assert (∀ e, w ≠ Pool.terminated e) as Hterm.
  { intros e ->. by apply (Pool.no_worker_terminated p Hp i e). }
  assert (w = Pool.finished → items p = [] ∧ closed p = true) as Hfin.
  { intros ->. by apply (Pool.finished_drained p Hp i). }
  split; [done|]. split; [done|]. intros Hc.
  destruct w as [| t | | e].
  - by left.
  - right. destruct (Pool.running_unsettled p Hp i t Hi) as (task & _ & -> & _).
    by exists task.
  - destruct Hfin as [_ Hc']; [done|congruence].
  - by destruct (Hterm e).
Qed.

Lemma in_order_reachable
    (num_threads hardware_concurrency : Z) schedule p :
  Pool.run schedule (Pool.construct num_threads hardware_concurrency) = Some p →
  ∃ next, Pool.in_order next p.
Proof. apply in_order_run with (next := 0), in_order_construct. Qed.

(** Tasks are handed to workers in the order of their submission: the
    queue holds exactly the tasks submitted and not yet taken, oldest
    first, so once a task has left the queue every task submitted before
    it has left the queue too. *)
Theorem tasks_start_in_submission_order
    (num_threads hardware_concurrency : Z) schedule p :
  (0 ≤ num_threads)%Z →
  Pool.run schedule (Pool.construct num_threads hardware_concurrency) = Some p →
  ∃ next,
    next ≤ length (Pool.heap p)
    ∧ items p = Pool.invoke_task <$> seq next (length (Pool.heap p) - next)
    ∧ ∀ earlier later,
        earlier < later < length (Pool.heap p) →
        ¬ Pool.queued (Pool.invoke_task later) p →
        ¬ Pool.queued (Pool.invoke_task earlier) p.
Proof.
  intros Hn Hrun.
  destruct (in_order_reachable _ _ _ _ Hrun) as [next [Hle Hq _ _]].
  exists next. split; [done|]. split; [done|].
  intros earlier later Hlt Hlater. unfold Pool.queued in *. rewrite Hq in *.
  intros (? & [= <-] & Hin%elem_of_seq)%list_elem_of_fmap.
  apply Hlater, list_elem_of_fmap. exists later. split; [done|].
  apply elem_of_seq. lia.
Qed.

(** A future is settled once and for all: in every state of a constructed
    pool a future that is no longer pending holds what its callable
    returned or raised, and it holds the same in every later state. *)
Theorem settled_future_is_final
    (num_threads hardware_concurrency : Z) schedule p fut pt later p' :
  (0 ≤ num_threads)%Z →
  Pool.run schedule (Pool.construct num_threads hardware_concurrency) = Some p →
  Pool.heap p !! fut = Some pt →
  Pool.state pt ≠ Pool.pending →
  Pool.run later p = Some p' →
  Pool.state pt = Pool.settle (Pool.func pt ())
  ∧ Pool.future_of fut p' = Some (Pool.state pt).
Proof.
  intros Hn Hrun Hl Hst Hlater.
  pose proof (consistent_reachable _ _ _ _ Hn Hrun) as Hp.
  split; [by apply (Pool.settled_result p Hp fut)|].
  destruct (run_heap later p p' fut pt Hlater Hl) as (pt' & Hl' & _ & Hev).
  unfold Pool.future_of. rewrite Hl'. simpl. by destruct Hev as [->|[? _]].
Qed.

(** The first loop of [wait_all] is that many [submit]s in a row. *)
Lemma submit_barriers_run n p p' barriers :
  closed p = false → Pool.submit_barriers n p = Returns barriers p' →
  Pool.run (replicate n (Pool.do_submit Pool.barrier)) p = Some p'.
Proof.
  revert p barriers. induction n as [|n IH]; intros p barriers Hc; simpl.
  - by intros [= _ <-].
  - rewrite submit_open by done.
    destruct (Pool.submit_barriers n _) as [bs p'' | |] eqn:Hn; [|done..].
    intros [= _ <-]. by eapply IH.
Qed.

(** What a return of [wait_all] tells: when its barriers were submitted
    to a constructed pool and all their futures are settled, every task
    submitted before the call has been taken from the queue; on a pool of
    one worker every such task has also run to its result. *)
Theorem wait_all_return_means
    (num_threads hardware_concurrency : Z) (before during : list (Pool.action V))
    p barriers p1 p2 task pt :
  (0 ≤ num_threads)%Z →
  Pool.run before (Pool.construct num_threads hardware_concurrency) = Some p →
  Pool.wait_all_submit p = Returns barriers p1 →
  Pool.run during p1 = Some p2 →
  Pool.wait_all_wait barriers p2 = Returns () p2 →
  Pool.heap p !! task = Some pt →
  ¬ Pool.queued (Pool.invoke_task task) p2
  ∧ (Pool.thread_count p = 1%Z →
     Pool.future_of task p2 = Some (Pool.settle (Pool.func pt ()))).
Proof.
  intros Hn Hbefore Hsubmit Hduring Hwait Hl.
  pose proof (consistent_reachable _ _ _ _ Hn Hbefore) as Hp.
  assert (task < length (Pool.heap p)) as Hlt by by eapply lookup_lt_Some.
  destruct (closed p) eqn:Hc.
  { unfold Pool.wait_all_submit in Hsubmit.
    destruct (Pool.workers_ p) as [|w ws] eqn:Hws.
    - by destruct (Pool.workers_nonempty p Hp).
    - simpl in Hsubmit. by rewrite submit_closed in Hsubmit. }
  unfold Pool.wait_all_submit in Hsubmit.
  destruct (submit_barriers_open (length (Pool.workers_ p)) p Hc)
    as (p1' & Hsubmit' & _ & Hheap & _).
  rewrite Hsubmit in Hsubmit'. injection Hsubmit' as -> <-.
  destruct (Pool.workers_ p) as [|w ws] eqn:Hws.
  { by destruct (Pool.workers_nonempty p Hp). }
  simpl in Hwait. unfold Pool.wait_all_wait in Hwait. simpl in Hwait.
  destruct (Pool.future_wait (length (Pool.heap p)) p2) eqn:Hfirst; [|done].
  unfold Pool.future_wait in Hfirst.
  destruct (Pool.heap p2 !! length (Pool.heap p)) as [ptb|] eqn:Hlb; [|done].
  assert (Pool.run (before ++ replicate (S (length ws)) (Pool.do_submit Pool.barrier)
                    ++ during)
            (Pool.construct num_threads hardware_concurrency) = Some p2) as Hrun.
  { rewrite run_app, Hbefore. cbn [mbind option_bind]. rewrite run_app.
    by rewrite (submit_barriers_run (S (length ws)) p p1 _ Hc Hsubmit). }
  destruct (settled_barrier_guarantee num_threads hardware_concurrency _ p2
              (length (Pool.heap p)) (Pool.state ptb) task Hn Hrun)
    as [Hnq Hone]; [by unfold Pool.future_of; rewrite Hlb| |done|].
  { intros Hpend. destruct ptb as [fb sb]. simpl in *. by subst sb. }
  split; [done|]. intros Hcount.
  destruct Hone as (st' & Hst' & Hne).
  { rewrite (run_thread_count _ _ _ Hrun).
    rewrite <- (run_thread_count _ _ _ Hbefore). done. }
  pose proof (consistent_reachable _ _ _ _ Hn Hrun) as Hp2.
  assert (Pool.heap p1 !! task = Some pt) as Hl1.
  { rewrite Hheap. by rewrite lookup_app_l. }
  destruct (run_heap during p1 p2 task pt Hduring Hl1) as (pt2 & Hl2 & Hf2 & _).
  unfold Pool.future_of in *. rewrite Hl2 in *. simpl in *.
  injection Hst' as <-.
  by rewrite (Pool.settled_result p2 Hp2 task pt2 Hl2 Hne), Hf2.
Qed.

End pool_tasks.

Section pool_progress.
Context {V : Type}.
Implicit Types (p : Pool.thread_pool V) (f g : Pool.callable V).
Implicit Types (t : Pool.function) (w : Pool.worker).
Implicit Types (h : list (Pool.packaged_task V)).
Implicit Types (a : Pool.action V) (schedule : list (Pool.action V)).

Local Abbreviation closed p := (Queue.shutdown_ (Pool.task_queue_ p)).
Local Abbreviation items p := (Queue.queue_ (Pool.task_queue_ p)).

Lemma pending_or_all_settled h :
  (∃ fut pt, h !! fut = Some pt ∧ Pool.state pt = Pool.pending)
  ∨ (∀ fut pt, h !! fut = Some pt → Pool.state pt ≠ Pool.pending).
Proof.
  induction h as [|pt0 h [(fut & pt & Hl & Hst)|Hall]].
  - right. intros fut pt Hl. by rewrite lookup_nil in Hl.
  - left. by exists (S fut), pt.
  - destruct (Pool.state pt0) eqn:Hst0.
    + left. by exists 0, pt0.
    + right. intros [|fut] pt; simpl; [intros [= <-]; congruence|apply Hall].
    + right. intros [|fut] pt; simpl; [intros [= <-]; congruence|apply Hall].
Qed.

Lemma worker_run_enabled i t p :
  Pool.consistent p → Pool.run_by i t p →
  ∃ p', Pool.step (Pool.do_worker_run i) p = Some p'.
Proof.
  intros Hp Hi. simpl. unfold Pool.worker_run. rewrite Hi.
  destruct (call_function_unsettled t p (Pool.running_unsettled p Hp i t Hi))
    as (task & pt & _ & _ & _ & ->).
  by eexists.
Qed.

(** While a future is pending, a worker can move. *)
Lemma pending_progress p fut pt :
  Pool.consistent p →
  Pool.heap p !! fut = Some pt → Pool.state pt = Pool.pending →
  ∃ a p', Pool.worker_action a = true ∧ Pool.step a p = Some p'.
Proof.
  intros Hp Hl Hst.
  destruct (Pool.pending_in_flight p Hp fut pt Hl Hst) as [Hq|[i Hi]].
  - destruct (Pool.workers_ p) as [|w ws] eqn:Hws.
    { by destruct (Pool.workers_nonempty p Hp). }
    assert (Pool.workers_ p !! 0 = Some w) as H0 by by rewrite Hws.
    destruct w as [| t | | e].
    + exists (Pool.do_worker_pop 0). simpl. unfold Pool.worker_pop. rewrite H0.
      unfold Pool.queued in Hq.
      destruct p as [[[|front rest] cl] ws' flag h]; simpl in *.
      * by apply not_elem_of_nil in Hq.
      * by eexists.
    + exists (Pool.do_worker_run 0).
      destruct (worker_run_enabled 0 t p Hp H0) as [p' Hstep]. by exists p'.
    + destruct (Pool.finished_drained p Hp 0 H0) as [Hits _].
      unfold Pool.queued in Hq. rewrite Hits in Hq.
      by apply not_elem_of_nil in Hq.
    + by destruct (Pool.no_worker_terminated p Hp 0 e).
  - exists (Pool.do_worker_run i).
    destruct (worker_run_enabled i _ p Hp Hi) as [p' Hstep]. by exists p'.
Qed.

Lemma settle_all n p :
  Pool.work_left p ≤ n → Pool.consistent p →
  ∃ schedule p',
    Forall (λ a, Pool.worker_action a = true) schedule
    ∧ Pool.run schedule p = Some p'
    ∧ ∀ fut pt, Pool.heap p' !! fut = Some pt → Pool.state pt ≠ Pool.pending.
Proof.
  revert p. induction n as [|n IH]; intros p Hle Hp;
    (destruct (pending_or_all_settled (Pool.heap p))
      as [(fut & pt & Hl & Hst)|Hall]; [|by exists [], p]);
    destruct (pending_progress p fut pt Hp Hl Hst) as (a & p1 & Ha & Hstep);
    pose proof (worker_step_work_left a p p1 Ha Hstep); [lia|].
  destruct (IH p1) as (schedule & p' & Hsched & Hrun & Hall);
    [lia|by eapply consistent_step|].
  exists (a :: schedule), p'. split; [by constructor|]. split; [|done].
  simpl. by rewrite Hstep.
Qed.

(** No accepted task is stranded.  From every state of a constructed
    pool, open or shut down, the workers alone can bring every future to
    the result of its callable; however they are scheduled they move at
    most [work_left] times before they must wait for new work, and as long
    as some future is pending one of them can move. *)
Theorem every_accepted_task_gets_run
    (num_threads hardware_concurrency : Z) schedule p :
  (0 ≤ num_threads)%Z →
  Pool.run schedule (Pool.construct num_threads hardware_concurrency) = Some p →
  (∃ workers p',
     Forall (λ a, Pool.worker_action a = true) workers
     ∧ Pool.run workers p = Some p'
     ∧ ∀ fut pt,
         Pool.heap p !! fut = Some pt →
         Pool.future_of fut p' = Some (Pool.settle (Pool.func pt ())))
  ∧ (∀ workers p',
       Forall (λ a, Pool.worker_action a = true) workers →
       Pool.run workers p = Some p' →
       length workers ≤ Pool.work_left p
       ∧ ∀ fut,
           Pool.future_of fut p' = Some Pool.pending →
           ∃ a p'', Pool.worker_action a = true ∧ Pool.step a p' = Some p'').
Proof.
  intros Hn Hrun.
  pose proof (consistent_reachable _ _ _ _ Hn Hrun) as Hp. split.
  - destruct (settle_all (Pool.work_left p) p) as (workers & p' & Hall & Hw & Hset);
      [done..|].
    exists workers, p'. split; [done|]. split; [done|]. intros fut pt Hl.
    pose proof (consistent_run _ _ _ Hp Hw) as Hp'.
    destruct (run_heap workers p p' fut pt Hw Hl) as (pt' & Hl' & Hf' & _).
    unfold Pool.future_of. rewrite Hl'. simpl.
    by rewrite (Pool.settled_result p' Hp' fut pt' Hl' (Hset fut pt' Hl')), Hf'.
  - intros workers p' Hall Hw.
    pose proof (consistent_run _ _ _ Hp Hw) as Hp'. split.
    + pose proof (run_work_left _ _ _ Hall Hw). lia.
    + intros fut. unfold Pool.future_of.
      destruct (Pool.heap p' !! fut) as [pt|] eqn:Hl; [|done]. simpl.
      intros [= Hst]. by eapply pending_progress.
Qed.

(** Workers touch neither of the two shutdown flags. *)
Lemma worker_step_flags a p p' :
  Pool.worker_action a = true → Pool.step a p = Some p' →
  closed p' = closed p ∧ Pool.shutdown_ p' = Pool.shutdown_ p.
Proof.
  destruct a as [f | i | i | |]; try done; intros _; simpl.
  - by intros [_ [(front & rest & _ & ->)|(_ & _ & ->)]]%worker_pop_cases.
  - intros (t & o & _ & _ & -> & _)%worker_run_cases. by destruct o.
Qed.

Lemma worker_run_flags schedule p p' :
  Forall (λ a, Pool.worker_action a = true) schedule →
  Pool.run schedule p = Some p' →
  closed p' = closed p ∧ Pool.shutdown_ p' = Pool.shutdown_ p.
Proof.
  intros Hall. revert p.
  induction Hall as [|a schedule Ha _ IH]; intros p; simpl.
  - by intros [= <-].
  - destruct (Pool.step a p) as [p1|] eqn:Hstep; [|done]. intros Hrun.
    destruct (IH p1 Hrun) as [-> ->]. by eapply worker_step_flags.
Qed.

Lemma wait_barriers_settled (barriers : list nat) p :
  (∀ b, b ∈ barriers →
        ∃ pt, Pool.heap p !! b = Some pt ∧ Pool.state pt ≠ Pool.pending) →
  Pool.wait_barriers barriers p = Some ().
Proof.
  induction barriers as [|b barriers IH]; intros Hall; [done|]. simpl.
  destruct (Hall b) as (pt & Hl & Hst); [by left|].
  unfold Pool.future_wait. rewrite Hl.
  destruct pt as [fb []]; simpl in *; try done;
    apply IH; intros b' Hb'; apply Hall; by right.
Qed.

(** [wait_all] does return.  On a constructed pool that has not been shut
    down its barriers are accepted, and the workers alone, with nothing
    else submitted, reach a state where every barrier future is settled, so
    that the waiting loop returns; the pool is then still open. *)
Theorem wait_all_returns
    (num_threads hardware_concurrency : Z) schedule p :
  (0 ≤ num_threads)%Z →
  Pool.run schedule (Pool.construct num_threads hardware_concurrency) = Some p →
  closed p = false →
  ∃ barriers p1 workers p2,
    Pool.wait_all_submit p = Returns barriers p1
    ∧ Z.of_nat (length barriers) = Pool.thread_count p
    ∧ Forall (λ a, Pool.worker_action a = true) workers
    ∧ Pool.run workers p1 = Some p2
    ∧ Pool.wait_all_wait barriers p2 = Returns () p2
    ∧ closed p2 = false
    ∧ Pool.is_shutdown p2 = Pool.is_shutdown p.
Proof.
  intros Hn Hrun Hc.
  pose proof (consistent_reachable _ _ _ _ Hn Hrun) as Hp.
  unfold Pool.wait_all_submit, Pool.thread_count.
  destruct (submit_barriers_open (length (Pool.workers_ p)) p Hc)
    as (p1 & Hsubmit & _ & Hheap & _ & Hflag & Hc1).
  pose proof (submit_barriers_run _ _ _ _ Hc Hsubmit) as Hrun1.
  assert (Pool.consistent p1) as Hp1 by by eapply consistent_run.
  destruct (settle_all (Pool.work_left p1) p1) as (workers & p2 & Hall & Hw & Hset);
    [done..|].
  exists (seq (length (Pool.heap p)) (length (Pool.workers_ p))), p1, workers, p2.
  split; [done|]. split; [by rewrite length_seq|]. split; [done|].
  split; [done|]. split; [|split].
  - unfold Pool.wait_all_wait. rewrite wait_barriers_settled; [done|].
    intros b Hb%elem_of_seq.
    destruct (lookup_lt_is_Some_2 (Pool.heap p1) b) as [pt1 Hl1].
    { rewrite Hheap, length_app, length_replicate. lia. }
    destruct (run_heap workers p1 p2 b pt1 Hw Hl1) as (pt2 & Hl2 & _).
    exists pt2. split; [done|]. by eapply Hset.
  - by rewrite (proj1 (worker_run_flags _ _ _ Hall Hw)).
  - unfold Pool.is_shutdown.
    by rewrite (proj2 (worker_run_flags _ _ _ Hall Hw)).
Qed.

End pool_progress.

Section pool_stopped.
Context {V : Type}.
Implicit Types (p : Pool.thread_pool V) (f g : Pool.callable V).
Implicit Types (a : Pool.action V) (schedule : list (Pool.action V)).

Local Abbreviation closed p := (Queue.shutdown_ (Pool.task_queue_ p)).
Local Abbreviation items p := (Queue.queue_ (Pool.task_queue_ p)).

Lemma stopped_step a p p' :
  Pool.shutdown_ p = true → closed p = true →
  (∀ i w, Pool.workers_ p !! i = Some w → w = Pool.finished) →
  Pool.step a p = Some p' → p' = p.
Proof.
  intros Hflag Hc Hfin. destruct a as [f | i | i | |]; simpl.
  - rewrite submit_closed by done. by intros [= <-].
  - intros [Hi _]%worker_pop_cases. by apply Hfin in Hi.
  - intros (t & o & Hi & _)%worker_run_cases. by apply Hfin in Hi.
  - intros [= <-]. destruct p; simpl in *. by subst.
  - rewrite Hflag. intros [= <-]. destruct p as [[its cl] ws flag h].
    simpl in *. by subst.
Qed.

(** A stopped pool stays as it is.  Once the join loop of [shutdown()] has
    returned, both flags are set and the queue is empty; no worker moves
    any more, every [submit] raises [ClosedError], and whatever is called
    on the pool leaves it exactly in the state it is in. *)
Theorem stopped_pool_is_inert
    (num_threads hardware_concurrency : Z) schedule p :
  (0 ≤ num_threads)%Z →
  Pool.run schedule (Pool.construct num_threads hardware_concurrency) = Some p →
  Pool.shutdown_join p = Returns () p →
  Pool.is_shutdown p = true ∧ closed p = true ∧ items p = []
  ∧ (∀ a, Pool.worker_action a = true → Pool.step a p = None)
  ∧ (∀ f, Pool.submit f p = Throws ClosedError p)
  ∧ (∀ later p', Pool.run later p = Some p' → p' = p).
Proof.
  intros Hn Hrun Hjoin.
  pose proof (consistent_reachable _ _ _ _ Hn Hrun) as Hp.
  assert (∀ i w, Pool.workers_ p !! i = Some w → w = Pool.finished) as Hfin.
  { unfold Pool.shutdown_join in Hjoin.
    destruct (Pool.join_workers (Pool.workers_ p)) as [[]|] eqn:Hj; [|done].
    by apply join_workers_Some. }
  assert (items p = [] ∧ closed p = true) as [Hits Hc].
  { destruct (Pool.workers_ p) as [|w ws] eqn:Hws.
    - by destruct (Pool.workers_nonempty p Hp).
    - apply (Pool.finished_drained p Hp 0). rewrite Hws. simpl. f_equal.
      by apply (Hfin 0). }
  assert (Pool.shutdown_ p = true) as Hflag.
  { by apply (run_closed_flag schedule
                (Pool.construct num_threads hardware_concurrency)). }
  split; [done|]. split; [done|]. split; [done|]. split; [|split].
  - intros [f | i | i | |]; try done; intros _; simpl.
    + unfold Pool.worker_pop.
      destruct (Pool.workers_ p !! i) as [w|] eqn:Hi; [|done].
      by rewrite (Hfin i w Hi).
    + unfold Pool.worker_run.
      destruct (Pool.workers_ p !! i) as [w|] eqn:Hi; [|done].
      by rewrite (Hfin i w Hi).
  - intros f. by apply submit_closed.
  - intros later. induction later as [|a later IH]; intros p'; simpl.
    + by intros [= <-].
    + destruct (Pool.step a p) as [p1|] eqn:Hstep; [|done].
      rewrite (stopped_step a p p1 Hflag Hc Hfin Hstep). apply IH.
Qed.

End pool_stopped.

(** * The further theorems at concrete inputs *)

Lemma ref_overloads_agree_witness :
  7 = 7 ∧ Queue.make = Queue.make (T:=nat)
  ∧ Queue.queue_ (Queue.make (T:=nat)) = [].
Proof.
  destruct (ref_overloads_agree 7 true (Queue.make (T:=nat)))
    as (_ & _ & _ & Hfalse).
  apply (Hfalse 7 Queue.make). right. right. reflexivity.
Defined.

Lemma wait_for_between_wait_and_try_witness :
  Queue.wait_for true {| Queue.queue_ := [1; 2]; Queue.shutdown_ := false |}
  = Queue.wait_and_pop {| Queue.queue_ := [1; 2]; Queue.shutdown_ := false |}.
Proof.
  destruct (wait_for_between_wait_and_try true
              {| Queue.queue_ := [1; 2]; Queue.shutdown_ := false |})
    as (_ & _ & Hreturns).
  apply Hreturns. discriminate.
Defined.

Lemma emplace_is_push_witness :
  Queue.emplace S 1 {| Queue.queue_ := [1]; Queue.shutdown_ := false |}
  = Queue.push 2 {| Queue.queue_ := [1]; Queue.shutdown_ := false |}
  ∧ Queue.emplace S 1 {| Queue.queue_ := [1]; Queue.shutdown_ := true |}
    = Throws (runtime_error "emplace() called on shutdown queue")
        {| Queue.queue_ := [1]; Queue.shutdown_ := true |}.
Proof.
  split.
  - apply (emplace_is_push S 1
             {| Queue.queue_ := [1]; Queue.shutdown_ := false |}).
    reflexivity.
  - apply (emplace_is_push S 1
             {| Queue.queue_ := [1]; Queue.shutdown_ := true |}).
    reflexivity.
Defined.

Lemma no_item_lost_or_duplicated_witness :
  Queue.all_taken
    [Queue.call_push 1; Queue.call_push 2; Queue.call_try_pop;
     Queue.call_shutdown; Queue.call_push 3; Queue.call_wait_and_pop]
    Queue.make
  = Queue.all_added
      [Queue.call_push 1; Queue.call_push 2; Queue.call_try_pop;
       Queue.call_shutdown; Queue.call_push 3; Queue.call_wait_and_pop]
      Queue.make.
Proof.
  apply (no_item_lost_or_duplicated
           [Queue.call_push 1; Queue.call_push 2; Queue.call_try_pop;
            Queue.call_shutdown; Queue.call_push 3; Queue.call_wait_and_pop]
           Queue.make).
  reflexivity.
Defined.

Lemma closed_queue_only_drains_witness :
  [1; 2]
  = Queue.all_taken [Queue.call_push 3; Queue.call_try_pop]
      {| Queue.queue_ := [1; 2]; Queue.shutdown_ := true |}
    ++ Queue.queue_
         (Queue.after_all [Queue.call_push 3; Queue.call_try_pop]
            {| Queue.queue_ := [1; 2]; Queue.shutdown_ := true |}).
Proof.
  apply (closed_queue_only_drains [Queue.call_push 3; Queue.call_try_pop]
           {| Queue.queue_ := [1; 2]; Queue.shutdown_ := true |}).
  reflexivity.
Defined.

Lemma thread_count_is_fixed_witness :
  ∃ p,
    Pool.run [Pool.do_submit (λ _, Pool.returned (Pool.value 1));
              Pool.do_worker_pop 0; Pool.do_shutdown_exchange]
      (Pool.construct (V:=nat) 3 8) = Some p
    ∧ Pool.thread_count p = 3%Z.
Proof.
  eexists. split; [reflexivity|].
  eapply (thread_count_is_fixed (V:=nat) 3 8
            [Pool.do_submit (λ _, Pool.returned (Pool.value 1));
             Pool.do_worker_pop 0; Pool.do_shutdown_exchange]);
    [lia|reflexivity|lia].
Defined.

Lemma pool_shutdown_is_idempotent_witness :
  ∃ p',
    Pool.run [Pool.do_submit (λ _, Pool.returned (Pool.value 1));
              Pool.do_shutdown_close; Pool.do_worker_pop 0]
      (snd (Pool.shutdown_exchange (Pool.construct (V:=nat) 2 8))) = Some p'
    ∧ Pool.is_shutdown p' = true
    ∧ Pool.shutdown_exchange p' = (true, p').
Proof.
  eexists. split; [reflexivity|].
  eapply (pool_shutdown_is_idempotent (V:=nat)
            [Pool.do_submit (λ _, Pool.returned (Pool.value 1));
             Pool.do_shutdown_close; Pool.do_worker_pop 0]
            (snd (Pool.shutdown_exchange (Pool.construct 2 8))));
    reflexivity.
Defined.

Lemma submit_raises_only_after_shutdown_witness :
  ∃ fut p',
    Pool.submit (λ _, Pool.returned (Pool.value 1)) (Pool.construct (V:=nat) 2 8)
    = Returns fut p'.
Proof.
  destruct (submit_raises_only_after_shutdown (V:=nat) 2 8 []
              (Pool.construct 2 8) (λ _, Pool.returned (Pool.value 1)))
    as (_ & Hopen & _); [lia|reflexivity|].
  apply Hopen. reflexivity.
Defined.

Lemma task_is_in_one_place_witness :
  ∃ p,
    Pool.run [Pool.do_submit (λ _, Pool.returned (Pool.value 1));
              Pool.do_worker_pop 1]
      (Pool.construct (V:=nat) 2 8) = Some p
    ∧ ¬ (Pool.queued (Pool.invoke_task 0) p
         ∧ ∃ i, Pool.run_by i (Pool.invoke_task 0) p)
    ∧ NoDup (Queue.queue_ (Pool.task_queue_ p)).
Proof.
  eexists. split; [reflexivity|].
  pose proof (λ p,
                task_is_in_one_place (V:=nat) 2 8
                  [Pool.do_submit (λ _, Pool.returned (Pool.value 1));
                   Pool.do_worker_pop 1] p 0
                  {| Pool.func := λ _, Pool.returned (Pool.value 1);
                     Pool.state := Pool.pending |}) as Hplace.
  edestruct Hplace as (_ & Hnot & _ & Hnodup); [lia|reflexivity|reflexivity|].
  split; [exact Hnot|exact Hnodup].
Defined.

Lemma workers_only_see_submitted_tasks_witness :
  ∃ p,
    Pool.run [Pool.do_submit (λ _, Pool.raised bad_function_call)]
      (Pool.construct (V:=nat) 2 8) = Some p
    ∧ ∃ task pt,
        Pool.invoke_task 0 = Pool.invoke_task task
        ∧ Pool.heap p !! task = Some pt
        ∧ Pool.state pt = Pool.pending
        ∧ Pool.call_function (Pool.invoke_task 0) (Pool.heap p)
          = Returns ()
              (<[task := {| Pool.func := Pool.func pt;
                            Pool.state := Pool.settle (Pool.func pt ()) |}]>
                 (Pool.heap p)).
Proof.
  eexists. split; [reflexivity|].
  eapply (workers_only_see_submitted_tasks (V:=nat) 2 8
            [Pool.do_submit (λ _, Pool.raised bad_function_call)]);
    [lia|reflexivity|].
  left. apply list_elem_of_singleton. reflexivity.
Defined.

Lemma workers_stay_until_drained_witness :
  ∃ p,
    Pool.run [Pool.do_submit (λ _, Pool.returned (Pool.value 1));
              Pool.do_worker_pop 1]
      (Pool.construct (V:=nat) 2 8) = Some p
    ∧ ∃ task, Pool.workers_ p !! 1 = Some (Pool.running (Pool.invoke_task task)).
Proof.
  eexists. split; [reflexivity|].
  pose proof (λ p,
                workers_stay_until_drained (V:=nat) 2 8
                  [Pool.do_submit (λ _, Pool.returned (Pool.value 1));
                   Pool.do_worker_pop 1] p 1
                  (Pool.running (Pool.invoke_task 0))) as Hstay.
  edestruct Hstay as (_ & _ & Hopen); [lia|reflexivity|reflexivity|].
  destruct Hopen as [[=]|[task Htask]]; [reflexivity|].
  exists task. simpl. f_equal. exact Htask.
Defined.

Lemma tasks_start_in_submission_order_witness :
  ∃ p,
    Pool.run [Pool.do_submit (λ _, Pool.returned (Pool.value 1));
              Pool.do_submit (λ _, Pool.returned (Pool.value 2));
              Pool.do_submit (λ _, Pool.returned (Pool.value 3));
              Pool.do_worker_pop 0; Pool.do_worker_pop 1]
      (Pool.construct (V:=nat) 2 8) = Some p
    ∧ ∃ next,
        next ≤ length (Pool.heap p)
        ∧ Queue.queue_ (Pool.task_queue_ p)
          = Pool.invoke_task <$> seq next (length (Pool.heap p) - next).
Proof.
  eexists. split; [reflexivity|].
  edestruct (tasks_start_in_submission_order (V:=nat) 2 8
               [Pool.do_submit (λ _, Pool.returned (Pool.value 1));
                Pool.do_submit (λ _, Pool.returned (Pool.value 2));
                Pool.do_submit (λ _, Pool.returned (Pool.value 3));
                Pool.do_worker_pop 0; Pool.do_worker_pop 1])
    as (next & Hle & Hqueue & _); [lia|reflexivity|].
  exists next. split; [exact Hle|exact Hqueue].
Defined.

Lemma settled_future_is_final_witness :
  ∃ p p',
    Pool.run [Pool.do_submit (λ _, Pool.returned (Pool.value 1));
              Pool.do_worker_pop 0; Pool.do_worker_run 0]
      (Pool.construct (V:=nat) 1 4) = Some p
    ∧ Pool.run [Pool.do_submit (λ _, Pool.returned (Pool.value 2));
                Pool.do_worker_pop 0] p = Some p'
    ∧ Pool.future_of 0 p' = Some (Pool.ready (Pool.value 1)).
Proof.
  eexists _, _. split; [reflexivity|]. split; [reflexivity|].
  eapply (settled_future_is_final (V:=nat) 1 4
            [Pool.do_submit (λ _, Pool.returned (Pool.value 1));
             Pool.do_worker_pop 0; Pool.do_worker_run 0]
            _ 0
            {| Pool.func := λ _, Pool.returned (Pool.value 1);
               Pool.state := Pool.ready (Pool.value 1) |}
            [Pool.do_submit (λ _, Pool.returned (Pool.value 2));
             Pool.do_worker_pop 0]);
    [lia|reflexivity|reflexivity|discriminate|reflexivity].
Defined.

Lemma wait_all_return_means_witness :
  ∃ p p1 p2,
    Pool.run [Pool.do_submit (λ _, Pool.returned (Pool.value 7))]
      (Pool.construct (V:=nat) 1 4) = Some p
    ∧ Pool.wait_all_submit p = Returns [1] p1
    ∧ Pool.run [Pool.do_worker_pop 0; Pool.do_worker_run 0;
                Pool.do_worker_pop 0; Pool.do_worker_run 0] p1 = Some p2
    ∧ Pool.future_of 0 p2 = Some (Pool.ready (Pool.value 7)).
Proof.
  eexists _, _, _. split; [reflexivity|]. split; [reflexivity|].
  split; [reflexivity|].
  pose proof (λ p p1 p2,
                wait_all_return_means (V:=nat) 1 4
                  [Pool.do_submit (λ _, Pool.returned (Pool.value 7))]
                  [Pool.do_worker_pop 0; Pool.do_worker_run 0;
                   Pool.do_worker_pop 0; Pool.do_worker_run 0]
                  p [1] p1 p2 0
                  {| Pool.func := λ _, Pool.returned (Pool.value 7);
                     Pool.state := Pool.pending |}) as Hmeans.
  edestruct Hmeans as [_ Hone];
    [lia|reflexivity|reflexivity|reflexivity|reflexivity|reflexivity|].
  apply Hone. reflexivity.
Defined.

Lemma every_accepted_task_gets_run_witness :
  ∃ p,
    Pool.run [Pool.do_submit (λ _, Pool.returned (Pool.value 1));
              Pool.do_submit (λ _, Pool.raised bad_function_call)]
      (Pool.construct (V:=nat) 2 8) = Some p
    ∧ ∃ workers p',
        Pool.run workers p = Some p'
        ∧ Pool.future_of 0 p' = Some (Pool.ready (Pool.value 1))
        ∧ Pool.future_of 1 p' = Some (Pool.failed bad_function_call).
Proof.
  eexists. split; [reflexivity|].
  pose proof (every_accepted_task_gets_run (V:=nat) 2 8
                [Pool.do_submit (λ _, Pool.returned (Pool.value 1));
                 Pool.do_submit (λ _, Pool.raised bad_function_call)])
    as Hgets.
  edestruct Hgets as [(workers & p' & _ & Hrun & Hsettled) _];
    [lia|reflexivity|].
  exists workers, p'. split; [exact Hrun|]. split.
  - exact (Hsettled 0 {| Pool.func := λ _, Pool.returned (Pool.value 1);
                         Pool.state := Pool.pending |} eq_refl).
  - exact (Hsettled 1 {| Pool.func := λ _, Pool.raised bad_function_call;
                         Pool.state := Pool.pending |} eq_refl).
Defined.

Lemma wait_all_returns_witness :
  ∃ p,
    Pool.run [Pool.do_submit (λ _, Pool.returned (Pool.value 1))]
      (Pool.construct (V:=nat) 2 8) = Some p
    ∧ ∃ barriers p1 workers p2,
        Pool.wait_all_submit p = Returns barriers p1
        ∧ Pool.run workers p1 = Some p2
        ∧ Pool.wait_all_wait barriers p2 = Returns () p2.
Proof.
  eexists. split; [reflexivity|].
  pose proof (wait_all_returns (V:=nat) 2 8
                [Pool.do_submit (λ _, Pool.returned (Pool.value 1))])
    as Hreturns.
  edestruct Hreturns
    as (barriers & p1 & workers & p2 & Hsubmit & _ & _ & Hrun & Hwait & _);
    [lia|reflexivity|reflexivity|].
  exists barriers, p1, workers, p2.
  split; [exact Hsubmit|]. split; [exact Hrun|exact Hwait].
Defined.

Lemma stopped_pool_is_inert_witness :
  ∃ p,
    Pool.run [Pool.do_submit (λ _, Pool.returned (Pool.value 1));
              Pool.do_shutdown_exchange; Pool.do_shutdown_close;
              Pool.do_worker_pop 0; Pool.do_worker_run 0; Pool.do_worker_pop 0]
      (Pool.construct (V:=nat) 1 4) = Some p
    ∧ Pool.submit (λ _, Pool.returned (Pool.value 2)) p = Throws ClosedError p
    ∧ Pool.run [Pool.do_submit (λ _, Pool.returned (Pool.value 2));
                Pool.do_shutdown_exchange; Pool.do_shutdown_close] p = Some p.
Proof.
  eexists. split; [reflexivity|].
  pose proof (stopped_pool_is_inert (V:=nat) 1 4
                [Pool.do_submit (λ _, Pool.returned (Pool.value 1));
                 Pool.do_shutdown_exchange; Pool.do_shutdown_close;
                 Pool.do_worker_pop 0; Pool.do_worker_run 0;
                 Pool.do_worker_pop 0]) as Hinert.
  edestruct Hinert as (_ & _ & _ & _ & Hsubmit & _);
    [lia|reflexivity|reflexivity|].
  split; [apply Hsubmit|reflexivity].
Defined.
